(** * docker-run-app: the supervisor of [main.go], embedded and verified

    The development follows [src/main.go] top to bottom.

    - Go's [int] is modelled by [Z]; every counter of the program is bounded
      by the length of a slice, so no wrap-around can occur.
    - A slice is a [list]; indexing and indexed assignment are bounds-checked
      and panic out of range, as the Go run time does.
    - A call either returns, terminates the whole program ([os.Exit], also
      through [log.Fatal]), or panics: type [Outcome].  The loops of eatFlag
      count their iterations down from the bound of the loop; [eatFlag_total]
      shows that the count never runs out.
    - Code with effects (logging, starting, signalling and killing the child,
      timers) runs in the state monad [M] over [State], which carries a clock
      and the trace of what was done; what the operating system and the
      child answer is read from an environment [Env].
    - Goroutines and selects are modelled by the order in which their effects
      are observed.  The goroutine of runCommand runs up to cmd.Start() before
      the select of runCommand takes a case; which case that is, is an answer
      of the environment.  In stopProcess the call of p.Signal and the timer
      start together; the select takes the receive from [c] when the call
      returns before the timer fires, the timer when it fires first, and
      either one (the environment says which) when both are ready at once. *)

From stdpp Require Import base strings list gmap.
From Stdlib Require Import ZArith Lia.

Local Open Scope string_scope.
Local Open Scope list_scope.
Local Open Scope Z_scope.

(** ** Outcomes of a call *)

Inductive RuntimeError : Type :=
| IndexOutOfRange (index length : Z)   (* "index out of range [i] with length n" *)
| MakeNegativeLen (n : Z).             (* "makeslice: len out of range" *)

Inductive Outcome (A : Type) : Type :=
| Ret (a : A)                 (* the call returns [a] *)
| Exit (code : Z)             (* the program ended through [os.Exit code] *)
| Panic (e : RuntimeError)    (* a run-time panic unwinds the program *)
| OutOfFuel.                  (* loop budget of the model exhausted *)

Arguments Ret {A} a.
Arguments Exit {A} code.
Arguments Panic {A} e.
Arguments OutOfFuel {A}.

Global Instance Outcome_ret : MRet Outcome := fun _ a => Ret a.

Global Instance Outcome_bind : MBind Outcome := fun _ _ k o =>
  match o with
  | Ret a => k a
  | Exit c => Exit c
  | Panic e => Panic e
  | OutOfFuel => OutOfFuel
  end.

(** ** Constants and types of [main.go] *)

(* time.Duration counts nanoseconds. *)
Definition time_Second : Z := 1000000000.
Definition SIG_TIMEOUT : Z := time_Second * 2.

Inductive AppError : Type :=
| OK
| AppStoppedWithError
| CannotStartApp
| FailedToKillApp
| MissingArgument
| InsufficientSignalError
| InvalidCommand
| BadFlag.

(* the value [iota] gave each constant *)
Definition AppError_int (e : AppError) : Z :=
  match e with
  | OK => 0
  | AppStoppedWithError => 1
  | CannotStartApp => 2
  | FailedToKillApp => 3
  | MissingArgument => 4
  | InsufficientSignalError => 5
  | InvalidCommand => 6
  | BadFlag => 7
  end.

Inductive FlagError : Type :=
| FlagFound
| FlagNotFound
| FlagHasTooFewParams.

Definition FlagError_int (e : FlagError) : Z :=
  match e with
  | FlagFound => 0
  | FlagNotFound => 1
  | FlagHasTooFewParams => 2
  end.

Global Instance AppError_eq_dec : EqDecision AppError.
Proof. solve_decision. Defined.

Global Instance FlagError_eq_dec : EqDecision FlagError.
Proof. solve_decision. Defined.

Definition ParamList : Type := list string.

(** ** Slices *)

Definition len {A} (s : list A) : Z := Z.of_nat (length s).

Definition in_range {A} (s : list A) (i : Z) : bool :=
  (0 <=? i) && (i <? len s).

(* s[i] *)
Definition index {A} (s : list A) (i : Z) : Outcome A :=
  if in_range s i then
    match s !! Z.to_nat i with
    | Some x => Ret x
    | None => Panic (IndexOutOfRange i (len s))
    end
  else Panic (IndexOutOfRange i (len s)).

(* s[i] = x *)
Definition store {A} (s : list A) (i : Z) (x : A) : Outcome (list A) :=
  if in_range s i then Ret (<[Z.to_nat i := x]> s)
  else Panic (IndexOutOfRange i (len s)).

(* make([]string, n): n strings, each the zero value "" *)
Definition make (n : Z) : Outcome (list string) :=
  if n <? 0 then Panic (MakeNegativeLen n)
  else Ret (replicate (Z.to_nat n) "").

(* strings.HasPrefix(s, prefix) *)
Definition strings_HasPrefix (s prefix : string) : bool := String.prefix prefix s.

(** ** eatFlag *)

(* the closure [hasFlag] of eatFlag: a scan of [flags] *)
Fixpoint hasFlag (flags : list string) (arg : string) : bool :=
  match flags with
  | [] => false
  | f :: flags' => if String.eqb f arg then true else hasFlag flags' arg
  end.

(* How a loop of eatFlag is left: it runs to its end (or to a [break]), or
   the function returns from inside it. *)
Inductive LoopExit (L R : Type) : Type :=
| Done (l : L)
| Returned (r : R).
Arguments Done {L R} l.
Arguments Returned {L R} r.

Definition EatResult : Type := (ParamList * list string * FlagError)%type.

(* for c := 0; c < availCount; c++ { ... }   (lines 156-165) *)
Fixpoint paramLoop (fuel : nat) (args : list string) (availCount c a : Z)
    (params : ParamList) : Outcome (LoopExit (ParamList * Z) EatResult) :=
  if c <? availCount then
    match fuel with
    | O => OutOfFuel
    | S fuel' =>
        arg ← index args a;
        if negb (strings_HasPrefix arg "-") then
          params' ← store params c arg;
          paramLoop fuel' args availCount (c + 1) (a + 1) params'
        else
          Ret (Returned ([], args, FlagHasTooFewParams))
    end
  else Ret (Done (params, a)).

(* the state the ArgLoop hands to the code after it *)
Record ArgLoopEnd : Type := mkArgLoopEnd {
  end_params : ParamList;
  end_remaining : list string;
  end_err : FlagError;
  end_a : Z;
  end_b : Z
}.

(* ArgLoop: for a, b = 0, 0; a < len(args); a++ { ... }   (lines 138-175) *)
Fixpoint ArgLoop (fuel : nat) (args flags : list string) (paramCount a b : Z)
    (remaining : list string) : Outcome (LoopExit ArgLoopEnd EatResult) :=
  if a <? len args then
    match fuel with
    | O => OutOfFuel
    | S fuel' =>
        arg ← index args a;
        if String.eqb "--" arg then
          (* stop processing flags *)
          Ret (Done (mkArgLoopEnd [] remaining FlagNotFound (a + 1) b))
        else if hasFlag flags arg then
          let a := a + 1 in
          let availCount := len args - a in
          if availCount <? paramCount then
            Ret (Returned ([], args, FlagHasTooFewParams))
          else
            params ← make paramCount;
            r ← paramLoop (Z.to_nat availCount) args availCount 0 a params;
            match r with
            | Returned x => Ret (Returned x)
            | Done (params, a) =>
                Ret (Done (mkArgLoopEnd params remaining FlagFound a b))
            end
        else
          (* copy unused arguments *)
          remaining' ← store remaining b arg;
          ArgLoop fuel' args flags paramCount (a + 1) (b + 1) remaining'
    end
  else Ret (Done (mkArgLoopEnd [] remaining FlagNotFound a b)).

(* for ; a < len(args); a++ { remaining[b] = args[a]; b++ }   (lines 178-181) *)
Fixpoint copyLoop (fuel : nat) (args : list string) (a b : Z)
    (remaining : list string) : Outcome (list string) :=
  if a <? len args then
    match fuel with
    | O => OutOfFuel
    | S fuel' =>
        arg ← index args a;
        remaining' ← store remaining b arg;
        copyLoop fuel' args (a + 1) (b + 1) remaining'
    end
  else Ret remaining.

(* eatFlag never writes into [args]; the slice it returns as [remaining] is
   either [args] itself or the fresh one it made, so values model it. *)
Definition eatFlag (args flags : list string) (paramCount : Z) : Outcome EatResult :=
  if len args =? 0 then Ret ([], args, FlagNotFound)
  else
    remaining ← make (len args);
    r ← ArgLoop (length args) args flags paramCount 0 0 remaining;
    match r with
    | Returned x => Ret x
    | Done e =>
        remaining' ← copyLoop (Z.to_nat (len args - end_a e)) args (end_a e) (end_b e)
                      (end_remaining e);
        Ret (end_params e, remaining', end_err e)
    end.

(** ** ParamList.getOr *)

Definition getOr (p : ParamList) (index_ : Z) (def : string) : Outcome string :=
  if (index_ <? 0) || (index_ >=? len p) then Ret def
  else index p index_.

(** ** AppError.Error *)

(* AppError.Error(); log.Println(err) writes this text *)
Definition AppError_Error (err : AppError) : string :=
  match err with
  | MissingArgument => "missing argument"
  | InsufficientSignalError => "SIGINT insufficient to stop app"
  | _ => "unknown error"
  end.

(** ** envOr *)

(* os.Getenv(name): the value of the variable, "" when it is not set *)
Definition os_Getenv (environ : gmap string string) (name : string) : string :=
  default "" (environ !! name).

Definition envOr (environ : gmap string string) (name def : string) : string :=
  let val := os_Getenv environ name in
  if decide (val ≠ "") then val else def.

(** ** The world outside the program *)

(* syscall.Signal is an integer type; os.Signal values are compared by it *)
Definition Signal : Type := Z.
Definition SIGHUP : Signal := 1.
Definition SIGINT : Signal := 2.
Definition SIGKILL : Signal := 9.
Definition SIGTERM : Signal := 15.

(* a non-nil Go [error] *)
Inductive error : Type :=
| ExitError (code : Z)        (* *exec.ExitError of cmd.Wait *)
| OSError (msg : string).     (* any error of the operating system *)

Global Instance error_eq_dec : EqDecision error.
Proof. solve_decision. Defined.

(* exec.Command(name, arg...) *)
Record Cmd : Type := exec_Command { cmd_Path : string; cmd_Args : list string }.

(* What a call [p.Signal(sig)] does: it returns after some nanoseconds with
   nil or an error, or it does not return. *)
Inductive Delivery : Type :=
| Returns (after : Z) (err : option error)
| Hangs.

Record Env : Type := mkEnv {
  os_OpenFile : string -> option error;   (* opening the log file *)
  cmd_Start : Cmd -> option error;        (* spawning the child *)
  child_exit_code : Z;                    (* exit code of the child left alone *)
  notified : option Signal;               (* the signal on [sigs] that the select of
                                             runCommand sees before [done] has a
                                             value; None: the child ends first *)
  p_Signal : Z -> Signal -> Delivery;     (* p.Signal(sig) called at a time *)
  select_tie : Z -> bool;                 (* both cases of a select ready at once:
                                             true takes the receive from [c] *)
  p_Kill : Z -> option error              (* p.Kill() called at a time *)
}.

Inductive LogDest : Type :=
| Stderr
| LogFile (name : string).

(* the log statements of main.go *)
Inductive LogLine : Type :=
| L_CannotOpenLogFile (name : string)
| L_MissingCommand
| L_InitLogMissingArgument
| L_StartError (e : error)
| L_AppStarted
| L_AppStopped
| L_AppStoppedWithError (e : error)
| L_ReceivedSignal (sig : Signal)
| L_AppError (e : AppError)
| L_AppStoppedWithSignal (sig : option Signal)
| L_FailedToKillApp (e : error)
| L_AttemptingToStop (sig : Signal).

Inductive Effect : Type :=
| Logged (dest : LogDest) (line : LogLine)
| PrintedUsage
| PrintedVersion
| StartCalled (cmd : Cmd)
| SignalSent (time : Z) (sig : Signal)   (* a call of p.Signal *)
| TimerArmed (deadline : Z)              (* time.After(SIG_TIMEOUT) *)
| KillSent (time : Z)                    (* a call of p.Kill *)
| FileClosed (name : string).

Record State : Type := mkState {
  clock : Z;               (* nanoseconds since the program started *)
  log_output : LogDest;    (* where package log writes *)
  trace : list Effect      (* what the program did so far, oldest first *)
}.

Definition initial : State := mkState 0 Stderr [].

(** ** The monad of effectful code *)

Definition M (A : Type) : Type := State -> State * Outcome A.

Global Instance M_ret : MRet M := fun _ a st => (st, Ret a).

Global Instance M_bind : MBind M := fun _ _ k m st =>
  match m st with
  | (st', Ret a) => k a st'
  | (st', Exit c) => (st', Exit c)
  | (st', Panic e) => (st', Panic e)
  | (st', OutOfFuel) => (st', OutOfFuel)
  end.

Definition lift {A} (o : Outcome A) : M A := fun st => (st, o).

Definition emit (e : Effect) : M unit := fun st =>
  (mkState (clock st) (log_output st) (trace st ++ [e]), Ret ()).

Definition now : M Z := fun st => (st, Ret (clock st)).

Definition advance (dt : Z) : M unit := fun st =>
  (mkState (clock st + dt) (log_output st) (trace st), Ret ()).

(* log.Println, log.Printf *)
Definition log_Print (l : LogLine) : M unit := fun st =>
  emit (Logged (log_output st) l) st.

Definition os_Exit {A} (code : Z) : M A := fun st => (st, Exit code).

(* log.Fatal: Print followed by os.Exit(1) *)
Definition log_Fatal {A} (l : LogLine) : M A :=
  log_Print l;; os_Exit 1.

Definition log_SetOutput (d : LogDest) : M unit := fun st =>
  (mkState (clock st) d (trace st), Ret ()).

Definition usage : M unit := emit PrintedUsage.
Definition version : M unit := emit PrintedVersion.

(** ** parseFlags *)

Definition parseFlags (args : list string) : M (gmap string string * list string) :=
  let remaining := args in
  (* VERSION. eat flag. exit if found. *)
  '(_, remaining, flagErr) ← lift (eatFlag remaining ["-V"; "--version"] 0);
  if decide (flagErr = FlagFound) then
    version;; os_Exit (AppError_int OK)
  else
  (* HELP. eat flag. exit if found. *)
  '(_, remaining, flagErr) ← lift (eatFlag remaining ["-h"; "--help"] 0);
  if decide (flagErr = FlagFound) then
    usage;; os_Exit (AppError_int OK)
  else
  let options : gmap string string := ∅ in
  (* INIT LOG. eat flag, 1 param. exit if error. *)
  '(params, remaining, flagErr) ← lift (eatFlag remaining ["--init-log"] 1);
  if decide (flagErr = FlagHasTooFewParams) then
    log_Print L_InitLogMissingArgument;;
    usage;;
    os_Exit (AppError_int BadFlag)
  else
    v ← lift (getOr params 0 "");
    mret (<["init-log" := v]> options, remaining).

Section Supervisor.

Variable env : Env.

(** ** stopProcess *)

(* which case of the select of stopProcess is taken *)
Inductive SelectCase : Type :=
| CaseAck (err : option error)   (* case err := <-c *)
| CaseTimeout.                   (* case _ = <-time.After(SIG_TIMEOUT) *)

(* The race of the delivery against the timer, both started together: the
   case taken and the time it took. *)
Definition select_race (tie : bool) (d : Delivery) : SelectCase * Z :=
  match d with
  | Hangs => (CaseTimeout, SIG_TIMEOUT)
  | Returns after err =>
      if after <? SIG_TIMEOUT then (CaseAck err, after)
      else if (after =? SIG_TIMEOUT) && tie then (CaseAck err, after)
      else (CaseTimeout, SIG_TIMEOUT)
  end.

(* lines 316-323: the goroutine sending sigs[0], the timer, the select *)
Definition deliver (sig : Signal) : M SelectCase :=
  log_Print (L_AttemptingToStop sig);;
  t0 ← now;
  emit (SignalSent t0 sig);;
  emit (TimerArmed (t0 + SIG_TIMEOUT));;
  let '(taken, dt) := select_race (select_tie env t0) (p_Signal env t0 sig) in
  advance dt;;
  mret taken.

Definition kill : M (option error) :=
  t0 ← now;
  emit (KillSent t0);;
  mret (p_Kill env t0).

Fixpoint stopProcess (sigs : list Signal) : M (option Signal * AppError) :=
  match sigs with
  | [] =>
      err ← kill;
      match err with
      | Some e => log_Fatal (L_FailedToKillApp e)
      | None => mret (None, FailedToKillApp)
      end
  | sig0 :: rest =>
      taken ← deliver sig0;
      match taken with
      | CaseAck None => mret (Some sig0, OK)
      | CaseAck (Some _) => stopProcess rest
      | CaseTimeout => stopProcess rest
      end
  end.

(** ** runCommand *)

(* cmd.Wait(): nil exactly when the child exits with code zero *)
Definition cmd_Wait : option error :=
  if child_exit_code env =? 0 then None else Some (ExitError (child_exit_code env)).

(* The goroutine of lines 238-264 is run up to cmd.Start() before the select;
   [cmd] comes fresh from exec.Command, so StdoutPipe and StderrPipe succeed. *)
Definition runCommand (cmd : Cmd) : M AppError :=
  emit (StartCalled cmd);;
  match cmd_Start env cmd with
  | Some e =>
      (* log.Fatal ends the program; [done <- err] below it is never reached *)
      log_Fatal (L_StartError e)
  | None =>
      log_Print L_AppStarted;;
      match notified env with
      | None =>
          (* case err := <-done *)
          match cmd_Wait with
          | None => log_Print L_AppStopped;; mret OK
          | Some e => log_Print (L_AppStoppedWithError e);; mret AppStoppedWithError
          end
      | Some sig =>
          (* case sig := <-sigs *)
          log_Print (L_ReceivedSignal sig);;
          '(sigSuccess, err) ← stopProcess [sig; SIGTERM; SIGHUP];
          if decide (err ≠ OK) then
            log_Print (L_AppError err);; mret err
          else
            log_Print (L_AppStoppedWithSignal sigSuccess);;
            (* did app stop with the expected signal? *)
            if decide (sigSuccess = Some sig) then mret OK
            else if decide (sigSuccess = Some SIGINT) then mret OK
            else mret InsufficientSignalError
      end
  end.

(** ** main *)

(* [argv] is os.Args[1:] *)
Definition main (argv : list string) : M unit :=
  '(options, args) ← parseFlags argv;
  let init_log := default "" (options !! "init-log") in
  file ← (if decide (init_log ≠ "") then
            match os_OpenFile env init_log with
            | Some _ => log_Print (L_CannotOpenLogFile init_log);; mret None
            | None => log_SetOutput (LogFile init_log);; mret (Some init_log)
            end
          else mret None);
  (* has command? *)
  err ← (if len args =? 0 then
           usage;; log_Print L_MissingCommand;; mret MissingArgument
         else
           cmd ← lift (index args 0);
           let args := if 1 <? len args then drop 1 args else [] in
           runCommand (exec_Command cmd args));
  match file with
  | Some name => emit (FileClosed name)
  | None => mret ()
  end;;
  os_Exit (AppError_int err).

End Supervisor.

(** * Vocabulary of the statements *)

(* an attempt to stop the child: one call on the process handle *)
Inductive Attempt : Type :=
| TrySignal (sig : Signal)
| TryKill.

Fixpoint attempts_of (tr : list Effect) : list Attempt :=
  match tr with
  | [] => []
  | SignalSent _ sig :: tr' => TrySignal sig :: attempts_of tr'
  | KillSent _ :: tr' => TryKill :: attempts_of tr'
  | _ :: tr' => attempts_of tr'
  end.

(* the effects of one delivery attempt begun in state [st] *)
Definition attempt_effects (st : State) (sig : Signal) : list Effect :=
  [Logged (log_output st) (L_AttemptingToStop sig);
   SignalSent (clock st) sig;
   TimerArmed (clock st + SIG_TIMEOUT)].

(* the state one delivery attempt leaves *)
Definition after_attempt (env : Env) (sig : Signal) (st : State) : State :=
  fst (deliver env sig st).

(* what a run of stopProcess on [sigs] may end with, and the attempts it made *)
Definition escalation_end (sigs : list Signal)
    (r : Outcome (option Signal * AppError)) (tried : list Attempt) : Prop :=
  (exists (k : nat) (sig : Signal),
      sigs !! k = Some sig /\
      r = Ret (Some sig, OK) /\
      tried = TrySignal <$> take (S k) sigs)
  \/
  (tried = (TrySignal <$> sigs) ++ [TryKill] /\
   (r = Ret (None, FailedToKillApp) \/ r = Exit 1)).

Definition logged (st : State) (lines : list LogLine) : list Effect :=
  Logged (log_output st) <$> lines.

Definition extend (st : State) (new : list Effect) : State :=
  mkState (clock st) (log_output st) (trace st ++ new).

(* the state in which runCommand calls stopProcess after receiving [sig] *)
Definition at_escalation (cmd : Cmd) (sig : Signal) (st : State) : State :=
  extend st (StartCalled cmd :: logged st [L_AppStarted; L_ReceivedSignal sig]).

(* an operation on slices returns or panics *)
Definition returns_or_panics {A} (o : Outcome A) : Prop :=
  match o with
  | Ret _ | Panic _ => True
  | Exit _ | OutOfFuel => False
  end.

(* a token the ArgLoop copies: not the marker, not one of the flags sought *)
Definition copied (flags : list string) (t : string) : Prop :=
  String.eqb "--" t = false /\ hasFlag flags t = false.

(* a token that is neither the marker nor a flag of the supervisor *)
Definition plain (t : string) : Prop :=
  t ∉ ["--"; "-V"; "--version"; "-h"; "--help"; "--init-log"].

(* a token the parameter loop takes, and one at which it gives up *)
Definition nodash (t : string) : Prop := strings_HasPrefix t "-" = false.
Definition dashed (t : string) : Prop := strings_HasPrefix t "-" = true.

(* a token at which the ArgLoop finds the flag it looks for *)
Definition sought (flags : list string) (t : string) : Prop :=
  String.eqb "--" t = false /\ hasFlag flags t = true.

(* a token that is neither the marker nor asks for the version or the help *)
Definition no_exit_flag (t : string) : Prop :=
  t ∉ ["--"; "-V"; "--version"; "-h"; "--help"].

(* an effect of stopProcess whose log lines go to [dest] *)
Definition stop_effect (dest : LogDest) (e : Effect) : Prop :=
  match e with
  | Logged d (L_AttemptingToStop _) | Logged d (L_FailedToKillApp _) => d = dest
  | SignalSent _ _ | TimerArmed _ | KillSent _ => True
  | _ => False
  end.

(* an effect that, if it is a log line, goes to [dest] *)
Definition logs_to (dest : LogDest) (e : Effect) : Prop :=
  match e with
  | Logged d _ => d = dest
  | _ => True
  end.

(* an effect of runCommand behind the call of cmd.Start(): its log lines go
   to [dest], and the only AppError it logs is FailedToKillApp *)
Definition run_effect (dest : LogDest) (e : Effect) : Prop :=
  match e with
  | Logged d l =>
      d = dest /\
      match l with
      | L_AppError err => err = FailedToKillApp
      | L_CannotOpenLogFile _ | L_MissingCommand | L_InitLogMissingArgument => False
      | _ => True
      end
  | SignalSent _ _ | TimerArmed _ | KillSent _ => True
  | _ => False
  end.

(* The three steps of main behind parseFlags, cut out of main as they
   stand there ([main_eq]).  Lines 77-83: *)
Definition main_open_log (env : Env) (init_log : string) : M (option string) :=
  if decide (init_log ≠ "") then
    match os_OpenFile env init_log with
    | Some _ => log_Print (L_CannotOpenLogFile init_log);; mret None
    | None => log_SetOutput (LogFile init_log);; mret (Some init_log)
    end
  else mret None.

(* lines 86-100: *)
Definition main_run (env : Env) (args : list string) : M AppError :=
  if len args =? 0 then
    usage;; log_Print L_MissingCommand;; mret MissingArgument
  else
    cmd ← lift (index args 0);
    let args := if 1 <? len args then drop 1 args else [] in
    runCommand env (exec_Command cmd args).

(* lines 102-104: *)
Definition main_close_log (file : option string) : M unit :=
  match file with
  | Some name => emit (FileClosed name)
  | None => mret ()
  end.

(** ** Environments of the examples *)

(* a child that accepts SIGTERM after a millisecond and reacts to nothing else;
   the environment sends SIGINT *)
Definition env_term_only : Env :=
  mkEnv (fun _ => None) (fun _ => None) 0 (Some SIGINT)
        (fun _ sig => if sig =? SIGTERM then Returns 1000000 None else Hangs)
        (fun _ => false) (fun _ => None).

(* a child that exits by itself with the given code; no signal arrives *)
Definition env_exits (code : Z) : Env :=
  mkEnv (fun _ => None) (fun _ => None) code None
        (fun _ _ => Hangs) (fun _ => false) (fun _ => None).

(* a child that reacts to no signal and dies only of the kill; the
   environment sends [sig] *)
Definition env_deaf (sig : Signal) : Env :=
  mkEnv (fun _ => None) (fun _ => None) 0 (Some sig)
        (fun _ _ => Hangs) (fun _ => false) (fun _ => None).

(* spawning fails with [e] *)
Definition env_no_spawn (e : error) : Env :=
  mkEnv (fun _ => None) (fun _ => Some e) 0 None
        (fun _ _ => Hangs) (fun _ => false) (fun _ => None).

(* a child that takes every signal after a microsecond; the environment
   sends [sig] *)
Definition env_obedient (sig : Signal) : Env :=
  mkEnv (fun _ => None) (fun _ => None) 0 (Some sig)
        (fun _ _ => Returns 1000 None) (fun _ => false) (fun _ => None).

(* a log file that cannot be opened *)
Definition env_no_log (e : error) : Env :=
  mkEnv (fun _ => Some e) (fun _ => None) 0 None
        (fun _ _ => Hangs) (fun _ => false) (fun _ => None).

(** * Properties *)

(** ** stopProcess *)

Lemma attempts_of_app tr1 tr2 :
  attempts_of (tr1 ++ tr2) = attempts_of tr1 ++ attempts_of tr2.
Proof.
  induction tr1 as [|e tr1 IH]; simpl; [reflexivity|].
  destruct e; simpl; rewrite ?IH; reflexivity.
Qed.

Ltac run_M :=
  repeat (progress (cbv [mbind mret M_bind M_ret log_Fatal log_Print os_Exit emit
                         now advance lift usage version log_SetOutput]; simpl)).

Lemma deliver_eq env sig st :
  deliver env sig st =
    (mkState (clock st + snd (select_race (select_tie env (clock st)) (p_Signal env (clock st) sig)))
             (log_output st)
             (trace st ++ attempt_effects st sig),
     Ret (fst (select_race (select_tie env (clock st)) (p_Signal env (clock st) sig)))).
Proof.
  unfold deliver, attempt_effects. run_M.
  destruct (select_race _ _) as [taken dt]. run_M.
  rewrite <- !app_assoc. reflexivity.
Qed.

Lemma stopProcess_cons env sig0 rest st :
  stopProcess env (sig0 :: rest) st =
    match fst (select_race (select_tie env (clock st)) (p_Signal env (clock st) sig0)) with
    | CaseAck None => (after_attempt env sig0 st, Ret (Some sig0, OK))
    | _ => stopProcess env rest (after_attempt env sig0 st)
    end.
Proof.
  unfold after_attempt.
  change (stopProcess env (sig0 :: rest) st) with
    (mbind (M := M) (fun taken => match taken with
                         | CaseAck None => mret (Some sig0, OK)
                         | CaseAck (Some _) => stopProcess env rest
                         | CaseTimeout => stopProcess env rest
                         end) (deliver env sig0) st).
  unfold mbind at 1, M_bind at 1.
  rewrite deliver_eq. simpl.
  destruct (fst (select_race _ _)) as [[e|]|]; reflexivity.
Qed.

Lemma kill_eq env st :
  kill env st =
    (mkState (clock st) (log_output st) (trace st ++ [KillSent (clock st)]),
     Ret (p_Kill env (clock st))).
Proof. reflexivity. Qed.

Lemma stopProcess_nil env st :
  stopProcess env [] st =
    match p_Kill env (clock st) with
    | None => (extend st [KillSent (clock st)], Ret (None, FailedToKillApp))
    | Some e =>
        (extend st [KillSent (clock st); Logged (log_output st) (L_FailedToKillApp e)],
         Exit 1)
    end.
Proof.
  simpl. unfold mbind at 1, M_bind at 1. rewrite kill_eq. unfold extend.
  destruct (p_Kill env (clock st)) as [e|]; run_M; [|reflexivity].
  rewrite <- app_assoc. reflexivity.
Qed.

(** C2. With an empty signal sequence stopProcess calls p.Kill() once and
    sends no signal.  When the kill fails the program is ended by log.Fatal
    with exit status 1; when the kill SUCCEEDS the call returns no signal
    together with FailedToKillApp -- the code has no other result for a forced
    kill, so a successful kill is reported as a failure to kill. *)
Theorem stopProcess_empty_plan (env : Env) (st : State) :
  stopProcess env [] st =
    match p_Kill env (clock st) with
    | None =>
        (mkState (clock st) (log_output st) (trace st ++ [KillSent (clock st)]),
         Ret (None, FailedToKillApp))
    | Some e =>
        (mkState (clock st) (log_output st)
           (trace st ++ [KillSent (clock st); Logged (log_output st) (L_FailedToKillApp e)]),
         Exit 1)
    end.
Proof. exact (stopProcess_nil env st). Qed.

(** C1. One escalation step on a non-empty sequence.  The step logs, calls
    p.Signal on the head and arms a timer that fires SIG_TIMEOUT = 2 s after
    the start of this very step.  If the call returns nil before the timer
    fires, stopProcess returns the head signal with OK; if it returns an
    error before the timer fires, or has not returned when the timer fires,
    stopProcess continues as stopProcess on the tail, started in the state
    the step leaves (so the tail's first step arms its own timer, 2 s after
    its own start). *)
Theorem stopProcess_escalation_step (env : Env) (sig0 : Signal) (rest : list Signal) (st : State) :
  let st' := after_attempt env sig0 st in
  SIG_TIMEOUT = 2000000000 /\
  trace st' = trace st ++ [Logged (log_output st) (L_AttemptingToStop sig0);
                           SignalSent (clock st) sig0;
                           TimerArmed (clock st + SIG_TIMEOUT)] /\
  (forall after,
      p_Signal env (clock st) sig0 = Returns after None -> after < SIG_TIMEOUT ->
      stopProcess env (sig0 :: rest) st = (st', Ret (Some sig0, OK)) /\
      clock st' = clock st + after) /\
  (forall after e,
      p_Signal env (clock st) sig0 = Returns after (Some e) -> after < SIG_TIMEOUT ->
      stopProcess env (sig0 :: rest) st = stopProcess env rest st' /\
      clock st' = clock st + after) /\
  (p_Signal env (clock st) sig0 = Hangs \/
   (exists after err, p_Signal env (clock st) sig0 = Returns after err /\ SIG_TIMEOUT < after) ->
      stopProcess env (sig0 :: rest) st = stopProcess env rest st' /\
      clock st' = clock st + SIG_TIMEOUT).
Proof.
  intros st'. subst st'. unfold after_attempt.
  split; [reflexivity|].
  split; [rewrite deliver_eq; reflexivity|].
  rewrite stopProcess_cons. unfold after_attempt. rewrite deliver_eq. simpl.
  split; [|split].
  - intros after Hret Hlt. rewrite Hret. simpl.
    apply Z.ltb_lt in Hlt. rewrite Hlt. split; reflexivity.
  - intros after e Hret Hlt. rewrite Hret. simpl.
    apply Z.ltb_lt in Hlt. rewrite Hlt. split; reflexivity.
  - intros [Hhang | (after & err & Hret & Hlt)].
    + rewrite Hhang. split; reflexivity.
    + rewrite Hret. simpl.
      replace (after <? SIG_TIMEOUT) with false by (symmetry; apply Z.ltb_ge; lia).
      replace (after =? SIG_TIMEOUT) with false by (symmetry; apply Z.eqb_neq; lia).
      split; reflexivity.
Qed.

Lemma stopProcess_escalation_step_witness :
  stopProcess env_term_only [SIGINT; SIGTERM] initial =
    stopProcess env_term_only [SIGTERM] (after_attempt env_term_only SIGINT initial) /\
  stopProcess env_term_only [SIGTERM] (after_attempt env_term_only SIGINT initial) =
    (after_attempt env_term_only SIGTERM (after_attempt env_term_only SIGINT initial),
     Ret (Some SIGTERM, OK)) /\
  clock (after_attempt env_term_only SIGTERM (after_attempt env_term_only SIGINT initial))
    = 2001000000.
Proof.
  destruct (stopProcess_escalation_step env_term_only SIGINT [SIGTERM] initial)
    as (_ & _ & _ & _ & Htimeout).
  destruct (stopProcess_escalation_step env_term_only SIGTERM []
              (after_attempt env_term_only SIGINT initial))
    as (_ & _ & Hack & _ & _).
  destruct Htimeout as [Hrec _]; [left; reflexivity|].
  destruct (Hack 1000000) as [Hok Hclock]; [reflexivity | reflexivity |].
  split; [exact Hrec|]. split; [exact Hok|]. rewrite Hclock. reflexivity.
Defined.

Lemma after_attempt_trace env sig st :
  trace (after_attempt env sig st) = trace st ++ attempt_effects st sig.
Proof. unfold after_attempt. rewrite deliver_eq. reflexivity. Qed.

Lemma attempts_of_attempt_effects st sig :
  attempts_of (attempt_effects st sig) = [TrySignal sig].
Proof. reflexivity. Qed.

Lemma escalation_end_bound sigs r tried :
  escalation_end sigs r tried -> (length tried <= length sigs + 1)%nat.
Proof.
  intros [(k & sig & Hk & _ & ->) | (-> & _)].
  - rewrite length_fmap, length_take. lia.
  - rewrite length_app, length_fmap. simpl. lia.
Qed.

Lemma stopProcess_runs env sigs : forall st,
  exists st' r new,
    stopProcess env sigs st = (st', r) /\
    trace st' = trace st ++ new /\
    escalation_end sigs r (attempts_of new).
Proof.
  induction sigs as [|sig0 rest IH]; intros st.
  - rewrite stopProcess_nil. unfold extend.
    destruct (p_Kill env (clock st)) as [e|]; eexists _, _, _;
      (split; [reflexivity|]); (split; [reflexivity|]); right; simpl; auto.
  - rewrite stopProcess_cons.
    destruct (IH (after_attempt env sig0 st)) as (st' & r & new & Hrun & Htr & Hend).
    assert (exists st'' r'' new'',
               stopProcess env rest (after_attempt env sig0 st) = (st'', r'') /\
               trace st'' = trace st ++ new'' /\
               escalation_end (sig0 :: rest) r'' (attempts_of new'')) as Hrec.
    { exists st', r, (attempt_effects st sig0 ++ new).
      split; [exact Hrun|]. split.
      - rewrite Htr, after_attempt_trace, app_assoc. reflexivity.
      - rewrite attempts_of_app, attempts_of_attempt_effects.
        destruct Hend as [(k & sig & Hk & Hr & Htried) | (Htried & Hr)].
        + left. exists (S k), sig. simpl. rewrite Htried. auto.
        + right. rewrite Htried. auto. }
    destruct (fst (select_race _ _)) as [[e|]|]; try exact Hrec.
    exists (after_attempt env sig0 st), (Ret (Some sig0, OK)), (attempt_effects st sig0).
    split; [reflexivity|]. split; [apply after_attempt_trace|].
    left. exists 0%nat, sig0. auto.
Qed.

(** C3. For every signal sequence [sigs] and every behaviour of the child,
    stopProcess returns or ends the program (it is total; it cannot panic or
    loop), having made at most [length sigs + 1] attempts: delivery attempts
    for a prefix of [sigs], in order, one per signal, followed by the
    unconditional kill only when every listed signal was tried.  The result
    is a signal of the sequence with OK, or no signal with FailedToKillApp,
    or the exit of log.Fatal.  A step either succeeds or continues on the
    tail, which is strictly shorter. *)
Theorem stopProcess_terminates (env : Env) (sigs : list Signal) (st : State) :
  (exists st' r new,
      stopProcess env sigs st = (st', r) /\
      trace st' = trace st ++ new /\
      (length (attempts_of new) <= length sigs + 1)%nat /\
      escalation_end sigs r (attempts_of new)) /\
  match sigs with
  | [] => True
  | sig0 :: rest =>
      (length rest < length sigs)%nat /\
      (stopProcess env sigs st = (after_attempt env sig0 st, Ret (Some sig0, OK)) \/
       stopProcess env sigs st = stopProcess env rest (after_attempt env sig0 st))
  end.
Proof.
  split.
  - destruct (stopProcess_runs env sigs st) as (st' & r & new & Hrun & Htr & Hend).
    exists st', r, new. repeat split; try assumption.
    eapply escalation_end_bound; eassumption.
  - destruct sigs as [|sig0 rest]; [exact I|].
    split; [simpl; lia|].
    rewrite stopProcess_cons.
    destruct (fst (select_race _ _)) as [[e|]|]; auto.
Qed.

(** ** runCommand *)

Lemma runCommand_on_signal env cmd st sig :
  cmd_Start env cmd = None ->
  notified env = Some sig ->
  runCommand env cmd st =
    match stopProcess env [sig; SIGTERM; SIGHUP] (at_escalation cmd sig st) with
    | (st', Ret (sigSuccess, err)) =>
        if decide (err ≠ OK) then (extend st' (logged st' [L_AppError err]), Ret err)
        else (extend st' (logged st' [L_AppStoppedWithSignal sigSuccess]),
              Ret (if decide (sigSuccess = Some sig) then OK
                   else if decide (sigSuccess = Some SIGINT) then OK
                   else InsufficientSignalError))
    | (st', Exit c) => (st', Exit c)
    | (st', Panic e) => (st', Panic e)
    | (st', OutOfFuel) => (st', OutOfFuel)
    end.
Proof.
  intros Hstart Hsig. unfold runCommand. rewrite Hstart, Hsig.
  unfold at_escalation, extend, logged.
  generalize (stopProcess env [sig; SIGTERM; SIGHUP]). intros escalate.
  cbv [mbind M_bind log_Print emit]. simpl.
  rewrite <- !app_assoc. simpl.
  destruct (escalate _) as [st' [[sigSuccess err]| | |]]; try reflexivity.
  destruct (decide (err ≠ OK)); simpl; [reflexivity|].
  destruct (decide (sigSuccess = Some sig)); [reflexivity|].
  destruct (decide (sigSuccess = Some SIGINT)); reflexivity.
Qed.

(** C4. When a termination signal [sig] was received and the escalation
    ends with signal [s] accepted, runCommand logs it and returns OK if [s]
    is the received signal or SIGINT, and InsufficientSignalError for every
    other accepted signal (the fallback SIGTERM included, when SIGTERM is not
    what was received). *)
Theorem runCommand_status_of_accepted_signal
    (env : Env) (cmd : Cmd) (st st' : State) (sig s : Signal) :
  cmd_Start env cmd = None ->
  notified env = Some sig ->
  stopProcess env [sig; SIGTERM; SIGHUP] (at_escalation cmd sig st) = (st', Ret (Some s, OK)) ->
  runCommand env cmd st =
    (extend st' (logged st' [L_AppStoppedWithSignal (Some s)]),
     Ret (if decide (s = sig \/ s = SIGINT) then OK else InsufficientSignalError)).
Proof.
  intros Hstart Hsig Hstop.
  rewrite (runCommand_on_signal env cmd st sig Hstart Hsig), Hstop.
  destruct (decide (OK ≠ OK)) as [Hne|_]; [congruence|].
  f_equal. f_equal.
  destruct (decide (Some s = Some sig)) as [Heq|Hne1].
  - injection Heq as ->. destruct (decide (sig = sig \/ sig = SIGINT)); tauto.
  - destruct (decide (Some s = Some SIGINT)) as [Heq|Hne2].
    + injection Heq as ->. destruct (decide (SIGINT = sig \/ SIGINT = SIGINT)); tauto.
    + destruct (decide (s = sig \/ s = SIGINT)) as [[->| ->]|_]; congruence.
Qed.

Lemma runCommand_status_of_accepted_signal_witness :
  snd (runCommand env_term_only (exec_Command "/usr/bin/app" ["-a"]) initial)
  = Ret InsufficientSignalError.
Proof.
  erewrite (runCommand_status_of_accepted_signal env_term_only _ initial _ SIGINT SIGTERM).
  - reflexivity.
  - reflexivity.
  - reflexivity.
  - vm_compute. reflexivity.
Defined.

Lemma runCommand_on_exit env cmd st :
  cmd_Start env cmd = None ->
  notified env = None ->
  runCommand env cmd st =
    (extend st (StartCalled cmd ::
                logged st [L_AppStarted;
                           match cmd_Wait env with
                           | None => L_AppStopped
                           | Some e => L_AppStoppedWithError e
                           end]),
     Ret (if child_exit_code env =? 0 then OK else AppStoppedWithError)).
Proof.
  intros Hstart Hsig. unfold runCommand, cmd_Wait. rewrite Hstart, Hsig.
  unfold extend, logged.
  destruct (child_exit_code env =? 0); run_M; rewrite <- !app_assoc; reflexivity.
Qed.

(** C7. If the child was started and ends before any termination signal is
    seen, runCommand returns OK when the child's exit code is zero and
    AppStoppedWithError when it is not; it logs, and makes no attempt to
    signal or kill the child. *)
Theorem runCommand_child_exits_first (env : Env) (cmd : Cmd) (st : State) :
  cmd_Start env cmd = None ->
  notified env = None ->
  exists new,
    runCommand env cmd st =
      (extend st new,
       Ret (if child_exit_code env =? 0 then OK else AppStoppedWithError)) /\
    attempts_of new = [].
Proof.
  intros Hstart Hsig. eexists. split.
  - apply runCommand_on_exit; assumption.
  - reflexivity.
Qed.

Lemma runCommand_child_exits_first_witness :
  exists new,
    runCommand (env_exits 1) (exec_Command "/bin/false" []) initial =
      (extend initial new, Ret AppStoppedWithError) /\
    attempts_of new = [].
Proof.
  exact (runCommand_child_exits_first (env_exits 1) (exec_Command "/bin/false" []) initial
           eq_refl eq_refl).
Defined.

(** C5. The plan runCommand hands to stopProcess is the received signal,
    SIGTERM and then SIGHUP: against a child that reacts to no signal, three
    signals are delivered before the kill.  The README lists the received
    signal, SIGTERM and SIGKILL; SIGHUP is a third deliverable signal of the
    plan. *)
Theorem runCommand_plan_delivers_SIGHUP (sig : Signal) (cmd : Cmd) :
  attempts_of (trace (fst (runCommand (env_deaf sig) cmd initial)))
  = [TrySignal sig; TrySignal SIGTERM; TrySignal SIGHUP; TryKill].
Proof. vm_compute. reflexivity. Qed.

(* The same child, killed successfully: the run reports FailedToKillApp. *)
Lemma runCommand_forced_kill_reports_failure (sig : Signal) (cmd : Cmd) :
  snd (runCommand (env_deaf sig) cmd initial) = Ret FailedToKillApp.
Proof. vm_compute. reflexivity. Qed.

Lemma runCommand_start_error env cmd st e :
  cmd_Start env cmd = Some e ->
  runCommand env cmd st =
    (extend st [StartCalled cmd; Logged (log_output st) (L_StartError e)], Exit 1).
Proof.
  intros Hstart. unfold runCommand. rewrite Hstart. unfold extend. run_M.
  rewrite <- app_assoc. reflexivity.
Qed.

Lemma runCommand_never_CannotStartApp env cmd st st' :
  runCommand env cmd st <> (st', Ret CannotStartApp).
Proof.
  destruct (cmd_Start env cmd) as [e|] eqn:Hstart.
  - rewrite (runCommand_start_error _ _ _ _ Hstart). congruence.
  - destruct (notified env) as [sig|] eqn:Hsig.
    + rewrite (runCommand_on_signal _ _ _ _ Hstart Hsig).
      destruct (stopProcess_runs env [sig; SIGTERM; SIGHUP] (at_escalation cmd sig st))
        as (st1 & r & new & -> & _ & Hend).
      destruct Hend as [(k & s & _ & -> & _) | (_ & [-> | ->])].
      * destruct (decide (OK ≠ OK)); [congruence|].
        destruct (decide (Some s = Some sig)); [congruence|].
        destruct (decide (Some s = Some SIGINT)); congruence.
      * destruct (decide (FailedToKillApp ≠ OK)) as [_|Hn]; [congruence|].
        exfalso. apply Hn. discriminate.
      * congruence.
    + rewrite (runCommand_on_exit env cmd st Hstart Hsig).
      destruct (child_exit_code env =? 0); congruence.
Qed.

(** C6. When cmd.Start() fails, runCommand does not return: log.Fatal
    logs the error and ends the program with exit status 1, whatever the
    error, the command and the state are; the status is not that of
    CannotStartApp (2), and in main the log file opened for --init-log is not
    closed. *)
Theorem runCommand_spawn_failure_is_fatal (e : error) (cmd : Cmd) (st : State) :
  runCommand (env_no_spawn e) cmd st =
    (extend st [StartCalled cmd; Logged (log_output st) (L_StartError e)], Exit 1)
  /\ AppError_int CannotStartApp = 2
  /\ main (env_no_spawn e) ["/nonexistent"; "--init-log"; "/tmp/init.log"] initial =
       (mkState 0 (LogFile "/tmp/init.log")
          [StartCalled (exec_Command "/nonexistent" [""; ""]);
           Logged (LogFile "/tmp/init.log") (L_StartError e)],
        Exit 1).
Proof.
  split; [|split].
  - apply runCommand_start_error. reflexivity.
  - reflexivity.
  - vm_compute. reflexivity.
Qed.

(** ** Flag parsing *)

Lemma len_cons {A} (x : A) (l : list A) : len (x :: l) = len l + 1.
Proof. unfold len. simpl length. lia. Qed.

Lemma len_nonneg {A} (l : list A) : 0 <= len l.
Proof. unfold len. lia. Qed.

Lemma index_in_range {A} (s : list A) (i : Z) :
  0 <= i < len s -> exists x, s !! Z.to_nat i = Some x /\ index s i = Ret x.
Proof.
  intros Hi. unfold index, in_range.
  destruct (lookup_lt_is_Some_2 s (Z.to_nat i)) as [x Hx]; [unfold len in Hi; lia|].
  exists x. split; [exact Hx|]. rewrite Hx.
  replace (0 <=? i) with true by (symmetry; apply Z.leb_le; lia).
  replace (i <? len s) with true by (symmetry; apply Z.ltb_lt; lia).
  reflexivity.
Qed.

(** C10. getOr never faults: inside the bounds it returns the element at
    the index, outside them (negative indices included) the default. *)
Theorem getOr_total (p : ParamList) (i : Z) (d : string) :
  (0 <= i < len p -> exists x, p !! Z.to_nat i = Some x /\ getOr p i d = Ret x) /\
  (~ (0 <= i < len p) -> getOr p i d = Ret d).
Proof.
  unfold getOr. rewrite Z.geb_leb.
  destruct (Z.ltb_spec i 0) as [Hneg|Hpos], (Z.leb_spec (len p) i) as [Hbig|Hsmall];
    simpl; split; intros Hi; try lia; try reflexivity.
  apply index_in_range. exact Hi.
Qed.

Lemma getOr_total_witness :
  getOr ["a"; "b"; "c"] 1 "z" = Ret "b" /\
  getOr ["a"; "b"; "c"] (-1) "z" = Ret "z" /\
  getOr ["a"; "b"; "c"] 3 "z" = Ret "z".
Proof.
  destruct (getOr_total ["a"; "b"; "c"] 1 "z") as [Hin _].
  destruct (getOr_total ["a"; "b"; "c"] (-1) "z") as [_ Hneg].
  destruct (getOr_total ["a"; "b"; "c"] 3 "z") as [_ Hbig].
  split; [|split].
  - destruct Hin as (x & Hx & Hget); [unfold len; simpl; lia|].
    rewrite Hget. f_equal. simpl in Hx. congruence.
  - apply Hneg. lia.
  - apply Hbig. unfold len. simpl. lia.
Defined.

(** *** The loops of eatFlag end within their bound *)

Ltac run_O := cbv [mbind mret Outcome_bind Outcome_ret].

Lemma index_returns_or_panics {A} (s : list A) i : returns_or_panics (index s i).
Proof.
  unfold index. destruct (in_range s i); [|exact I].
  destruct (s !! Z.to_nat i); exact I.
Qed.

Lemma store_returns_or_panics {A} (s : list A) i x : returns_or_panics (store s i x).
Proof. unfold store. destruct (in_range s i); exact I. Qed.

Lemma make_returns_or_panics n : returns_or_panics (make n).
Proof. unfold make. destruct (n <? 0); exact I. Qed.

Ltac slice_op o x :=
  let H := fresh "Hop" in
  first [ pose proof (index_returns_or_panics _ _ : returns_or_panics o) as H
        | pose proof (store_returns_or_panics _ _ _ : returns_or_panics o) as H
        | pose proof (make_returns_or_panics _ : returns_or_panics o) as H ];
  destruct o as [x| | |]; try contradiction; clear H; run_O; try discriminate.

Lemma paramLoop_fuel fuel : forall args avail c a params,
  avail - c <= Z.of_nat fuel ->
  paramLoop fuel args avail c a params <> OutOfFuel.
Proof.
  induction fuel as [|fuel IH]; intros args avail c a params Hfuel;
    cbn [paramLoop copyLoop ArgLoop].
  - destruct (Z.ltb_spec c avail); [lia | discriminate].
  - destruct (Z.ltb_spec c avail); [|discriminate].
    slice_op (index args a) arg.
    destruct (negb (strings_HasPrefix arg "-")); [|discriminate].
    slice_op (store params c arg) params'.
    apply IH. lia.
Qed.

Lemma copyLoop_fuel fuel : forall args a b remaining,
  len args - a <= Z.of_nat fuel ->
  copyLoop fuel args a b remaining <> OutOfFuel.
Proof.
  induction fuel as [|fuel IH]; intros args a b remaining Hfuel;
    cbn [paramLoop copyLoop ArgLoop].
  - destruct (Z.ltb_spec a (len args)); [lia | discriminate].
  - destruct (Z.ltb_spec a (len args)); [|discriminate].
    slice_op (index args a) arg.
    slice_op (store remaining b arg) remaining'.
    apply IH. lia.
Qed.

Lemma ArgLoop_fuel fuel : forall args flags paramCount a b remaining,
  len args - a <= Z.of_nat fuel ->
  ArgLoop fuel args flags paramCount a b remaining <> OutOfFuel.
Proof.
  induction fuel as [|fuel IH]; intros args flags paramCount a b remaining Hfuel;
    cbn [paramLoop copyLoop ArgLoop].
  - destruct (Z.ltb_spec a (len args)); [lia | discriminate].
  - destruct (Z.ltb_spec a (len args)); [|discriminate].
    slice_op (index args a) arg.
    destruct (String.eqb "--" arg); [discriminate|].
    destruct (hasFlag flags arg).
    + destruct (len args - (a + 1) <? paramCount); [discriminate|].
      slice_op (make paramCount) params.
      pose proof (paramLoop_fuel (Z.to_nat (len args - (a + 1))) args
                    (len args - (a + 1)) 0 (a + 1) params) as Hp.
      destruct (paramLoop _ _ _ _ _ _) as [[[params' a']|x]| | |]; run_O; try discriminate.
      exfalso. apply Hp; [lia | reflexivity].
    + slice_op (store remaining b arg) remaining'.
      apply IH. lia.
Qed.

Theorem eatFlag_total args flags paramCount :
  eatFlag args flags paramCount <> OutOfFuel.
Proof.
  unfold eatFlag.
  destruct (len args =? 0); [discriminate|].
  slice_op (make (len args)) remaining.
  pose proof (ArgLoop_fuel (length args) args flags paramCount 0 0 remaining) as Ha.
  destruct (ArgLoop _ _ _ _ _ _ _) as [[e|x]| | |]; run_O; try discriminate.
  - pose proof (copyLoop_fuel (Z.to_nat (len args - end_a e)) args (end_a e) (end_b e)
                  (end_remaining e)) as Hc.
    destruct (copyLoop _ _ _ _ _) as [remaining'| | |]; run_O; try discriminate.
    exfalso. apply Hc; [lia | reflexivity].
  - exfalso. apply Ha; [unfold len; lia | reflexivity].
Qed.

(** *** The parameter loop overruns [params] *)

Lemma index_here {A} (x : A) (l : list A) : index (x :: l) 0 = Ret x.
Proof.
  unfold index, in_range. rewrite len_cons.
  replace (0 <? len l + 1) with true by (symmetry; apply Z.ltb_lt; pose proof (len_nonneg l); lia).
  reflexivity.
Qed.

Lemma index_later {A} (x : A) (l : list A) (i : Z) :
  0 <= i < len l -> index (x :: l) (i + 1) = index l i.
Proof.
  intros Hi. unfold index, in_range. rewrite len_cons.
  replace (0 <=? i + 1) with true by (symmetry; apply Z.leb_le; lia).
  replace (i + 1 <? len l + 1) with true by (symmetry; apply Z.ltb_lt; lia).
  replace (0 <=? i) with true by (symmetry; apply Z.leb_le; lia).
  replace (i <? len l) with true by (symmetry; apply Z.ltb_lt; lia).
  simpl. replace (Z.to_nat (i + 1)) with (S (Z.to_nat i)) by lia. simpl.
  destruct (l !! Z.to_nat i) as [y|] eqn:Hy; [reflexivity|].
  apply lookup_ge_None in Hy. unfold len in Hi. lia.
Qed.

(* The overrun behind C9, for every FILE and CMD without a leading dash and
   whatever follows them. *)
Lemma eatFlag_init_log_overrun (FILE CMD : string) (rest : list string) :
  strings_HasPrefix FILE "-" = false ->
  strings_HasPrefix CMD "-" = false ->
  eatFlag ("--init-log" :: FILE :: CMD :: rest) ["--init-log"] 1
  = Panic (IndexOutOfRange 1 1).
Proof.
  intros HFILE HCMD.
  set (args := "--init-log" :: FILE :: CMD :: rest).
  assert (len args = len rest + 3) as Hlen
    by (unfold args; rewrite !len_cons; lia).
  pose proof (len_nonneg rest) as Hrest.
  assert (index args 0 = Ret "--init-log") as H0 by apply index_here.
  assert (index args 1 = Ret FILE) as H1.
  { unfold args. rewrite (index_later _ _ 0); [apply index_here|].
    rewrite !len_cons. lia. }
  assert (index args 2 = Ret CMD) as H2.
  { unfold args. rewrite (index_later _ _ 1); [|rewrite !len_cons; lia].
    rewrite (index_later _ _ 0); [apply index_here|]. rewrite !len_cons. lia. }
  unfold eatFlag.
  replace (len args =? 0) with false by (symmetry; apply Z.eqb_neq; lia).
  unfold make at 1.
  replace (len args <? 0) with false by (symmetry; apply Z.ltb_ge; lia).
  run_O.
  replace (length args) with (S (S (S (length rest)))) by reflexivity.
  cbn [ArgLoop].
  replace (0 <? len args) with true by (symmetry; apply Z.ltb_lt; lia).
  rewrite H0. run_O.
  change (String.eqb "--" "--init-log") with false.
  change (hasFlag ["--init-log"] "--init-log") with true.
  cbv iota zeta.
  replace (len args - (0 + 1) <? 1) with false by (symmetry; apply Z.ltb_ge; lia).
  change (make 1) with (Ret [""]).
  replace (Z.to_nat (len args - (0 + 1))) with (S (S (length rest)))
    by (unfold len in *; lia).
  cbn [paramLoop].
  replace (0 <? len args - (0 + 1)) with true by (symmetry; apply Z.ltb_lt; lia).
  change (0 + 1) with 1. rewrite H1. run_O. rewrite HFILE. cbn [negb].
  change (store [""] 0 FILE) with (Ret [FILE]). cbv iota beta.
  replace (1 <? len args - 1) with true by (symmetry; apply Z.ltb_lt; lia).
  change (1 + 1) with 2. rewrite H2. cbv iota beta. rewrite HCMD.
  reflexivity.
Qed.

(** *** What the copy loops leave in [remaining] *)

Lemma len_app {A} (l1 l2 : list A) : len (l1 ++ l2) = len l1 + len l2.
Proof. unfold len. rewrite length_app. lia. Qed.

Lemma index_middle {A} (l1 l2 : list A) (x : A) :
  index (l1 ++ x :: l2) (len l1) = Ret x.
Proof.
  unfold index, in_range. rewrite len_app, len_cons.
  pose proof (len_nonneg l1). pose proof (len_nonneg l2).
  replace (0 <=? len l1) with true by (symmetry; apply Z.leb_le; lia).
  replace (len l1 <? len l1 + (len l2 + 1)) with true by (symmetry; apply Z.ltb_lt; lia).
  simpl. rewrite (list_lookup_middle l1 l2 x); [reflexivity|]. unfold len. lia.
Qed.

Lemma store_middle {A} (l1 l2 : list A) (x y : A) :
  store (l1 ++ y :: l2) (len l1) x = Ret (l1 ++ x :: l2).
Proof.
  unfold store, in_range. rewrite len_app, len_cons.
  pose proof (len_nonneg l1). pose proof (len_nonneg l2).
  replace (0 <=? len l1) with true by (symmetry; apply Z.leb_le; lia).
  replace (len l1 <? len l1 + (len l2 + 1)) with true by (symmetry; apply Z.ltb_lt; lia).
  simpl. f_equal. unfold len. rewrite Nat2Z.id.
  rewrite insert_app_r_alt by lia. rewrite Nat.sub_diag. reflexivity.
Qed.

(* The copy loop moves what is left of [args] into [remaining] from
   position b on, and leaves the entries behind it as they were. *)
Lemma copyLoop_copies (todo : list string) : forall seen front back,
  (length todo <= length back)%nat ->
  copyLoop (length todo) (seen ++ todo) (len seen) (len front) (front ++ back)
  = Ret (front ++ todo ++ drop (length todo) back).
Proof.
  induction todo as [|t todo IH]; intros seen front back Hback; cbn [copyLoop length].
  - rewrite app_nil_r, Z.ltb_irrefl. reflexivity.
  - rewrite len_app, len_cons. pose proof (len_nonneg todo).
    replace (len seen <? len seen + (len todo + 1)) with true
      by (symmetry; apply Z.ltb_lt; lia).
    rewrite index_middle. run_O.
    destruct back as [|b0 back]; [simpl in Hback; lia|].
    rewrite store_middle.
    specialize (IH (seen ++ [t]) (front ++ [t]) back).
    rewrite !len_app, <- !app_assoc in IH. simpl in IH.
    change (len [t]) with 1 in IH.
    rewrite IH by (simpl in Hback; lia).
    reflexivity.
Qed.

Lemma ArgLoop_copies flags paramCount (todo : list string) : forall fuel seen front back,
  Forall (copied flags) todo ->
  (length todo <= fuel)%nat ->
  (length todo <= length back)%nat ->
  ArgLoop fuel (seen ++ todo) flags paramCount (len seen) (len front) (front ++ back)
  = Ret (Done (mkArgLoopEnd [] (front ++ todo ++ drop (length todo) back) FlagNotFound
                 (len seen + len todo) (len front + len todo))).
Proof.
  induction todo as [|t todo IH]; intros fuel seen front back Hcopied Hfuel Hback.
  - rewrite app_nil_r. change (len []) with 0. rewrite !Z.add_0_r.
    destruct fuel; cbn [ArgLoop]; rewrite Z.ltb_irrefl; reflexivity.
  - destruct fuel as [|fuel]; [simpl in Hfuel; lia|]. cbn [ArgLoop].
    rewrite len_app, len_cons. pose proof (len_nonneg todo).
    replace (len seen <? len seen + (len todo + 1)) with true
      by (symmetry; apply Z.ltb_lt; lia).
    rewrite index_middle. run_O.
    apply Forall_cons in Hcopied as [[Hmark Hflag] Hcopied].
    rewrite Hmark, Hflag.
    destruct back as [|b0 back]; [simpl in Hback; lia|].
    rewrite store_middle.
    specialize (IH fuel (seen ++ [t]) (front ++ [t]) back Hcopied).
    rewrite !len_app, <- !app_assoc in IH. simpl in IH.
    change (len [t]) with 1 in IH.
    rewrite IH by (simpl in Hfuel, Hback; lia).
    simpl. do 2 f_equal. f_equal; lia.
Qed.

(* A "--" in front: the pass ends at once, and the copy loop shifts the
   tokens that follow one place down, leaving one "" at the end. *)
Lemma eatFlag_double_dash (toks flags : list string) (paramCount : Z) :
  eatFlag ("--" :: toks) flags paramCount = Ret ([], toks ++ [""], FlagNotFound).
Proof.
  unfold eatFlag. rewrite len_cons. pose proof (len_nonneg toks).
  replace (len toks + 1 =? 0) with false by (symmetry; apply Z.eqb_neq; lia).
  unfold make. replace (len toks + 1 <? 0) with false by (symmetry; apply Z.ltb_ge; lia).
  run_O. cbn [length ArgLoop]. rewrite len_cons.
  replace (0 <? len toks + 1) with true by (symmetry; apply Z.ltb_lt; lia).
  rewrite index_here. run_O. change (String.eqb "--" "--") with true. cbv iota beta.
  cbn [end_a end_b end_remaining end_params end_err].
  replace (Z.to_nat (len toks + 1 - (0 + 1))) with (length toks) by (unfold len; lia).
  replace (Z.to_nat (len toks + 1)) with (S (length toks)) by (unfold len; lia).
  pose proof (copyLoop_copies toks ["--"] [] (replicate (S (length toks)) "")) as Hcopy.
  rewrite length_replicate in Hcopy.
  change (len ["--"]) with (0 + 1) in Hcopy. change (len (@nil string)) with 0 in Hcopy.
  cbn [app] in Hcopy. rewrite Hcopy by lia.
  rewrite drop_replicate. replace (S (length toks) - length toks)%nat with 1%nat by lia.
  reflexivity.
Qed.

(* A pass over arguments that hold neither the marker nor the flag sought
   leaves them as they are. *)
Lemma eatFlag_nothing_to_eat (args flags : list string) (paramCount : Z) :
  Forall (copied flags) args ->
  eatFlag args flags paramCount = Ret ([], args, FlagNotFound).
Proof.
  intros Hcopied. unfold eatFlag.
  destruct (Z.eqb_spec (len args) 0) as [Hempty|Hsome]; [reflexivity|].
  unfold make. pose proof (len_nonneg args).
  replace (len args <? 0) with false by (symmetry; apply Z.ltb_ge; lia).
  run_O.
  pose proof (ArgLoop_copies flags paramCount args (length args) [] []
                (replicate (Z.to_nat (len args)) "") Hcopied) as Hloop.
  rewrite length_replicate in Hloop.
  change (len (@nil string)) with 0 in Hloop. cbn [app] in Hloop.
  rewrite Hloop by (unfold len; lia).
  cbn [end_a end_b end_remaining end_params end_err].
  rewrite !Z.add_0_l.
  replace (Z.to_nat (len args - len args)) with 0%nat by lia.
  cbn [copyLoop]. rewrite Z.ltb_irrefl.
  rewrite drop_replicate. replace (Z.to_nat (len args) - length args)%nat with 0%nat
    by (unfold len; lia).
  simpl. rewrite app_nil_r. reflexivity.
Qed.

Lemma hasFlag_spec flags arg : hasFlag flags arg = true <-> arg ∈ flags.
Proof.
  induction flags as [|f flags IH]; simpl.
  - split; [discriminate | intros H; inversion H].
  - destruct (String.eqb_spec f arg) as [->|Hne].
    + split; [intros _; left | reflexivity].
    + rewrite IH. split; [intros H; right; exact H|].
      intros H. apply elem_of_cons in H as [->|H]; [congruence | exact H].
Qed.

Lemma copied_not_elem flags t : t ∉ "--" :: flags -> copied flags t.
Proof.
  intros Hnot. split.
  - destruct (String.eqb_spec "--" t) as [<-|_]; [|reflexivity].
    exfalso. apply Hnot. left.
  - destruct (hasFlag flags t) eqn:Hf; [|reflexivity].
    exfalso. apply Hnot. right. apply hasFlag_spec. exact Hf.
Qed.

Ltac flag_subset :=
  let f := fresh "f" in
  let Hf := fresh "Hf" in
  intros f Hf;
  repeat (apply elem_of_cons in Hf as [->|Hf]; [solve [repeat constructor]|]);
  inversion Hf.

Lemma plain_copied flags (toks : list string) :
  (forall f, f ∈ flags -> f ∈ ["-V"; "--version"; "-h"; "--help"; "--init-log"]) ->
  Forall plain toks -> Forall (copied flags) (toks ++ [""]).
Proof.
  intros Hsub Hplain. apply Forall_app. split.
  - eapply Forall_impl; [exact Hplain|]. intros t Ht. apply copied_not_elem.
    intros Hin. apply Ht.
    apply elem_of_cons in Hin as [->|Hin]; [left | right; apply Hsub; exact Hin].
  - apply Forall_singleton. apply copied_not_elem.
    intros Hin. apply elem_of_cons in Hin as [Hin|Hin]; [discriminate|].
    apply Hsub in Hin.
    repeat (apply elem_of_cons in Hin as [Hin|Hin]; [discriminate|]).
    inversion Hin.
Qed.

(* After a leading "--", tokens that are none of the supervisor's own come
   out of parseFlags in order, followed by one empty string. *)
Lemma parseFlags_double_dash (toks : list string) (st : State) :
  Forall plain toks ->
  parseFlags ("--" :: toks) st = (st, Ret (<["init-log" := ""]> ∅, toks ++ [""])).
Proof.
  intros Hplain. unfold parseFlags. run_M.
  rewrite eatFlag_double_dash.
  destruct (decide (FlagNotFound = FlagFound)) as [Hne|_]; [discriminate|].
  rewrite (eatFlag_nothing_to_eat (toks ++ [""]) ["-h"; "--help"] 0)
    by (apply plain_copied; [flag_subset | exact Hplain]).
  destruct (decide (FlagNotFound = FlagFound)) as [Hne|_]; [discriminate|].
  rewrite (eatFlag_nothing_to_eat (toks ++ [""]) ["--init-log"] 1)
    by (apply plain_copied; [flag_subset | exact Hplain]).
  reflexivity.
Qed.

(* So the child of [-- cmd cargs...] is run with the arguments [cargs]
   and one more, the empty string. *)
Lemma main_double_dash (env : Env) (cmd : string) (cargs : list string) (st : State) :
  Forall plain (cmd :: cargs) ->
  main env ("--" :: cmd :: cargs) st =
    (err ← runCommand env (exec_Command cmd (cargs ++ [""])); os_Exit (AppError_int err)) st.
Proof.
  intros Hplain. unfold main.
  unfold mbind at 1, M_bind at 1. rewrite (parseFlags_double_dash _ _ Hplain).
  rewrite lookup_insert_eq. cbn [from_option id].
  destruct (decide ("" ≠ "")) as [Hne|_]; [congruence|].
  change ((cmd :: cargs) ++ [""]) with (cmd :: (cargs ++ [""])).
  rewrite !len_cons, len_app. change (len [""]) with 1.
  pose proof (len_nonneg cargs).
  replace (len cargs + 1 + 1 =? 0) with false by (symmetry; apply Z.eqb_neq; lia).
  replace (1 <? len cargs + 1 + 1) with true by (symmetry; apply Z.ltb_lt; lia).
  unfold lift. rewrite index_here. cbn [drop].
  unfold mbind, M_bind, mret, M_ret, os_Exit.
  destruct (runCommand env _ st) as [st' [err| | |]]; reflexivity.
Qed.

(** C9. On ["--init-log"; FILE; CMD] the scan for --init-log overruns the
    one-element parameter list: having stored FILE in params[0] it goes on to
    store CMD in params[1] and the program panics.  No option is set, no
    command is run, nothing is logged. *)
Theorem main_init_log_then_command_panics (env : Env) (st : State) :
  main env ["--init-log"; "/tmp/init.log"; "/bin/true"] st
  = (st, Panic (IndexOutOfRange 1 1)).
Proof. vm_compute. reflexivity. Qed.

(** C8. Tokens after "--" do not reach the child unchanged: the slice of
    remaining arguments keeps the length of the input, so every token a pass
    consumes leaves an empty string at the end; only the first pass sees the
    "--", so the later passes still look for -h, --help, --init-log and a
    second "--" among the tokens that followed it. *)
Theorem main_double_dash_not_verbatim :
  (* an empty argument is added *)
  main (env_exits 1) ["--"; "/bin/false"] initial =
    (mkState 0 Stderr
       [StartCalled (exec_Command "/bin/false" [""]);
        Logged Stderr L_AppStarted;
        Logged Stderr (L_AppStoppedWithError (ExitError 1))],
     Exit 1) /\
  (* a -h of the command is taken for the supervisor's own *)
  main (env_exits 0) ["--"; "/bin/ls"; "-h"] initial =
    (initial, Panic (IndexOutOfRange 0 0)) /\
  (* a second "--" is dropped *)
  main (env_exits 0) ["--"; "/bin/echo"; "--"; "x"] initial =
    (mkState 0 Stderr
       [StartCalled (exec_Command "/bin/echo" ["x"; ""; ""]);
        Logged Stderr L_AppStarted;
        Logged Stderr L_AppStopped],
     Exit 0) /\
  (* an --init-log of the command is taken for the supervisor's own *)
  main (env_exits 0) ["--"; "/usr/bin/app"; "--init-log"; "app.log"] initial =
    (initial, Panic (IndexOutOfRange 1 1)).
Proof. repeat split; vm_compute; reflexivity. Qed.

(** * Lemmas for the further properties *)

Lemma ltb_true a b : a < b -> (a <? b) = true.
Proof. apply Z.ltb_lt. Qed.

Lemma ltb_false a b : b <= a -> (a <? b) = false.
Proof. apply Z.ltb_ge. Qed.

Lemma ArgLoop_skips flags paramCount (pre : list string) :
  forall k args a b remaining seen rest front back,
  args = seen ++ pre ++ rest -> a = len seen ->
  remaining = front ++ back -> b = len front ->
  Forall (copied flags) pre ->
  (length pre <= length back)%nat ->
  ArgLoop (length pre + k) args flags paramCount a b remaining =
  ArgLoop k args flags paramCount (a + len pre) (b + len pre)
          (front ++ pre ++ drop (length pre) back).
Proof.
  induction pre as [|t pre IH];
    intros k args a b remaining seen rest front back -> -> -> -> Hcopied Hback.
  - change (len (@nil string)) with 0. rewrite !Z.add_0_r. reflexivity.
  - cbn [length Nat.add ArgLoop].
    rewrite !len_app, !len_cons.
    pose proof (len_nonneg pre). pose proof (len_nonneg rest).
    rewrite ltb_true by lia.
    change (seen ++ (t :: pre) ++ rest) with (seen ++ t :: (pre ++ rest)).
    rewrite index_middle. run_O.
    apply Forall_cons in Hcopied as [[Hmark Hflag] Hcopied].
    rewrite Hmark, Hflag.
    destruct back as [|b0 back]; [simpl in Hback; lia|].
    rewrite store_middle.
    rewrite (IH k (seen ++ t :: pre ++ rest) (len seen + 1) (len front + 1)
               (front ++ t :: back) (seen ++ [t]) rest (front ++ [t]) back);
      try (rewrite <- ?app_assoc; reflexivity);
      try (rewrite len_app; reflexivity);
      [|exact Hcopied|simpl in Hback; lia].
    rewrite <- !app_assoc. cbn [app drop].
    f_equal; lia.
Qed.

Lemma paramLoop_eats (good : list string) :
  forall k args avail c a params seen rest front back,
  args = seen ++ good ++ rest -> a = len seen ->
  params = front ++ back -> c = len front ->
  Forall nodash good ->
  (length good <= length back)%nat ->
  c + len good <= avail ->
  paramLoop (length good + k) args avail c a params =
  paramLoop k args avail (c + len good) (a + len good)
            (front ++ good ++ drop (length good) back).
Proof.
  induction good as [|t good IH];
    intros k args avail c a params seen rest front back -> -> -> -> Hgood Hback Havail.
  - change (len (@nil string)) with 0. rewrite !Z.add_0_r. reflexivity.
  - cbn [length Nat.add paramLoop].
    rewrite len_cons in Havail. pose proof (len_nonneg good).
    rewrite ltb_true by lia.
    change (seen ++ (t :: good) ++ rest) with (seen ++ t :: (good ++ rest)).
    rewrite index_middle. run_O.
    apply Forall_cons in Hgood as [Ht Hgood]. unfold nodash in Ht. rewrite Ht.
    cbn [negb].
    destruct back as [|b0 back]; [simpl in Hback; lia|].
    rewrite store_middle.
    rewrite (IH k (seen ++ t :: good ++ rest) avail (len front + 1) (len seen + 1)
               (front ++ t :: back) (seen ++ [t]) rest (front ++ [t]) back);
      try (rewrite <- ?app_assoc; reflexivity);
      try (rewrite len_app; reflexivity);
      [|exact Hgood|simpl in Hback; lia|lia].
    rewrite <- !app_assoc, len_cons. cbn [app drop].
    f_equal; lia.
Qed.

Lemma eatFlag_at flags paramCount (pre : list string) (t : string) (rest : list string) :
  Forall (copied flags) pre ->
  eatFlag (pre ++ t :: rest) flags paramCount =
    (r ← ArgLoop (S (length rest)) (pre ++ t :: rest) flags paramCount (len pre) (len pre)
           (pre ++ replicate (S (length rest)) "");
     match r with
     | Returned x => Ret x
     | Done e =>
         remaining' ← copyLoop (Z.to_nat (len (pre ++ t :: rest) - end_a e))
                               (pre ++ t :: rest) (end_a e) (end_b e) (end_remaining e);
         Ret (end_params e, remaining', end_err e)
     end).
Proof.
  intros Hcopied. unfold eatFlag.
  pose proof (len_nonneg pre). pose proof (len_nonneg rest).
  assert (len (pre ++ t :: rest) = len pre + len rest + 1) as Hlen
    by (rewrite len_app, len_cons; lia).
  replace (len (pre ++ t :: rest) =? 0) with false by (symmetry; apply Z.eqb_neq; lia).
  unfold make. rewrite ltb_false by lia.
  change (mbind ?k (Ret ?x)) with (k x). cbv beta.
  replace (length (pre ++ t :: rest)) with (length pre + S (length rest))%nat
    by (rewrite length_app; reflexivity).
  rewrite (ArgLoop_skips flags paramCount pre (S (length rest)) (pre ++ t :: rest) 0 0
             (replicate (Z.to_nat (len (pre ++ t :: rest))) "") [] (t :: rest) []
             (replicate (Z.to_nat (len (pre ++ t :: rest))) ""));
    try reflexivity; [|exact Hcopied|rewrite length_replicate; unfold len in *; lia].
  rewrite !Z.add_0_l, drop_replicate. cbn [app].
  replace (Z.to_nat (len (pre ++ t :: rest)) - length pre)%nat with (S (length rest))
    by (unfold len in *; lia).
  reflexivity.
Qed.

(* A marker after tokens that are copied: the tokens behind it are moved
   down one place without being looked at. *)
Lemma eatFlag_marker flags paramCount (pre rest : list string) :
  Forall (copied flags) pre ->
  eatFlag (pre ++ "--" :: rest) flags paramCount
  = Ret ([], pre ++ rest ++ [""], FlagNotFound).
Proof.
  intros Hcopied. rewrite (eatFlag_at _ _ _ _ _ Hcopied).
  pose proof (len_nonneg pre). pose proof (len_nonneg rest).
  cbn [ArgLoop]. rewrite len_app, len_cons, ltb_true by lia.
  rewrite index_middle. run_O. change (String.eqb "--" "--") with true. cbv iota beta.
  cbn [end_a end_b end_remaining end_params end_err].
  replace (Z.to_nat (len pre + (len rest + 1) - (len pre + 1))) with (length rest)
    by (unfold len; lia).
  pose proof (copyLoop_copies rest (pre ++ ["--"]) pre (replicate (S (length rest)) ""))
    as Hcopy.
  rewrite length_replicate, <- app_assoc, len_app in Hcopy. cbn [app] in Hcopy.
  change (len ["--"]) with 1 in Hcopy. rewrite Hcopy by lia.
  rewrite drop_replicate. replace (S (length rest) - length rest)%nat with 1%nat by lia.
  reflexivity.
Qed.

Lemma ArgLoop_flag flags paramCount k (pre : list string) t rest b remaining :
  sought flags t ->
  ArgLoop (S k) (pre ++ t :: rest) flags paramCount (len pre) b remaining =
    if len rest <? paramCount then
      Ret (Returned ([], pre ++ t :: rest, FlagHasTooFewParams))
    else
      params ← make paramCount;
      r ← paramLoop (length rest) (pre ++ t :: rest) (len rest) 0 (len pre + 1) params;
      match r with
      | Returned x => Ret (Returned x)
      | Done (params, a) => Ret (Done (mkArgLoopEnd params remaining FlagFound a b))
      end.
Proof.
  intros [Hmark Hflag]. cbn [ArgLoop].
  pose proof (len_nonneg pre). pose proof (len_nonneg rest).
  rewrite len_app, len_cons, ltb_true by lia.
  rewrite index_middle. run_O. rewrite Hmark, Hflag.
  replace (len pre + (len rest + 1) - (len pre + 1)) with (len rest) by lia.
  replace (Z.to_nat (len rest)) with (length rest) by (unfold len; lia).
  reflexivity.
Qed.

(* The flag with exactly its parameters at the very end of the arguments:
    the only way eatFlag finds a flag. *)
Lemma eatFlag_found flags (pre : list string) (t : string) (ps : list string) :
  Forall (copied flags) pre ->
  sought flags t ->
  Forall nodash ps ->
  eatFlag (pre ++ t :: ps) flags (len ps)
  = Ret (ps, pre ++ replicate (S (length ps)) "", FlagFound).
Proof.
  intros Hcopied Hsought Hps. rewrite (eatFlag_at _ _ _ _ _ Hcopied).
  rewrite (ArgLoop_flag _ _ _ _ _ _ _ _ Hsought).
  pose proof (len_nonneg pre). pose proof (len_nonneg ps).
  rewrite Z.ltb_irrefl. unfold make. rewrite ltb_false by lia. run_O.
  replace (Z.to_nat (len ps)) with (length ps) by (unfold len; lia).
  pose proof (paramLoop_eats ps 0 (pre ++ t :: ps) (len ps) 0 (len pre + 1)
                (replicate (length ps) "") (pre ++ [t]) [] [] (replicate (length ps) ""))
    as Heat.
  rewrite Nat.add_0_r, app_nil_r, <- app_assoc, len_app, length_replicate in Heat.
  specialize (Heat eq_refl eq_refl eq_refl eq_refl Hps).
  rewrite Heat by lia. clear Heat.
  cbn [paramLoop]. rewrite Z.add_0_l, Z.ltb_irrefl.
  rewrite drop_replicate, Nat.sub_diag. cbn [app replicate]. rewrite app_nil_r.
  cbn [end_a end_b end_remaining end_params end_err].
  rewrite len_app, len_cons.
  replace (Z.to_nat (len pre + (len ps + 1) - (len pre + 1 + len ps))) with 0%nat by lia.
  cbn [copyLoop]. rewrite len_app, len_cons, ltb_false by lia. reflexivity.
Qed.

(* fewer arguments behind the flag than it needs *)
Lemma eatFlag_short flags paramCount (pre : list string) t rest :
  Forall (copied flags) pre ->
  sought flags t ->
  len rest < paramCount ->
  eatFlag (pre ++ t :: rest) flags paramCount
  = Ret ([], pre ++ t :: rest, FlagHasTooFewParams).
Proof.
  intros Hcopied Hsought Hshort. rewrite (eatFlag_at _ _ _ _ _ Hcopied).
  rewrite (ArgLoop_flag _ _ _ _ _ _ _ _ Hsought).
  rewrite ltb_true by lia. reflexivity.
Qed.

Lemma eatFlag_negative_paramCount flags paramCount (pre : list string) t rest :
  Forall (copied flags) pre ->
  sought flags t ->
  paramCount < 0 ->
  eatFlag (pre ++ t :: rest) flags paramCount = Panic (MakeNegativeLen paramCount).
Proof.
  intros Hcopied Hsought Hneg. rewrite (eatFlag_at _ _ _ _ _ Hcopied).
  rewrite (ArgLoop_flag _ _ _ _ _ _ _ _ Hsought).
  pose proof (len_nonneg rest).
  rewrite ltb_false by lia. unfold make. rewrite ltb_true by lia. reflexivity.
Qed.

(* the parameter loop, having taken [good], stands before [t] *)
Lemma paramLoop_reaches (pre : list string) flag (good : list string) t rest
    paramCount :
  Forall nodash good ->
  len good <= paramCount ->
  paramLoop (length (good ++ t :: rest)) (pre ++ flag :: good ++ t :: rest)
            (len (good ++ t :: rest)) 0 (len pre + 1)
            (replicate (Z.to_nat paramCount) "")
  = (arg ← Ret t;
     if negb (strings_HasPrefix arg "-") then
       params' ← store (good ++ replicate (Z.to_nat paramCount - length good) "")
                       (len good) arg;
       paramLoop (length rest) (pre ++ flag :: good ++ t :: rest)
                 (len (good ++ t :: rest)) (len good + 1) (len pre + 1 + len good + 1)
                 params'
     else Ret (Returned ([], pre ++ flag :: good ++ t :: rest, FlagHasTooFewParams))).
Proof.
  intros Hgood Hlen.
  pose proof (len_nonneg pre). pose proof (len_nonneg good). pose proof (len_nonneg rest).
  replace (length (good ++ t :: rest)) with (length good + S (length rest))%nat
    by (rewrite length_app; reflexivity).
  pose proof (paramLoop_eats good (S (length rest)) (pre ++ flag :: good ++ t :: rest)
                (len (good ++ t :: rest)) 0 (len pre + 1)
                (replicate (Z.to_nat paramCount) "") (pre ++ [flag]) (t :: rest) []
                (replicate (Z.to_nat paramCount) "")) as Heat.
  rewrite <- app_assoc, len_app, length_replicate in Heat.
  specialize (Heat eq_refl eq_refl eq_refl eq_refl Hgood).
  rewrite Heat by (rewrite ?len_app, ?len_cons; unfold len in *; lia). clear Heat.
  cbn [paramLoop]. rewrite Z.add_0_l.
  rewrite !len_app, !len_cons, ltb_true by lia.
  replace (pre ++ flag :: good ++ t :: rest) with ((pre ++ flag :: good) ++ t :: rest)
    by (rewrite <- app_assoc; reflexivity).
  replace (len pre + 1 + len good) with (len (pre ++ flag :: good))
    by (rewrite len_app, len_cons; lia).
  rewrite index_middle. rewrite drop_replicate. cbn [app].
  rewrite !len_app, !len_cons. reflexivity.
Qed.

(* a flag's parameters are cut short by a token that begins with a dash *)
Lemma eatFlag_interrupted flags paramCount (pre : list string) flag good t rest :
  Forall (copied flags) pre ->
  sought flags flag ->
  Forall nodash good ->
  dashed t ->
  len good <= paramCount ->
  eatFlag (pre ++ flag :: good ++ t :: rest) flags paramCount
  = Ret ([], pre ++ flag :: good ++ t :: rest, FlagHasTooFewParams).
Proof.
  intros Hcopied Hsought Hgood Ht Hlen. rewrite (eatFlag_at _ _ _ _ _ Hcopied).
  rewrite (ArgLoop_flag _ _ _ _ _ _ _ _ Hsought).
  destruct (Z.ltb_spec (len (good ++ t :: rest)) paramCount) as [Hshort|Hlong];
    [reflexivity|].
  pose proof (len_nonneg good).
  unfold make. rewrite ltb_false by lia. run_O.
  rewrite (paramLoop_reaches pre flag good t rest paramCount Hgood Hlen).
  run_O. unfold dashed in Ht. rewrite Ht. reflexivity.
Qed.

(* one argument too many behind the flag: the store leaves [params] *)
Lemma eatFlag_overrun flags (pre : list string) flag good t rest :
  Forall (copied flags) pre ->
  sought flags flag ->
  Forall nodash good ->
  nodash t ->
  eatFlag (pre ++ flag :: good ++ t :: rest) flags (len good)
  = Panic (IndexOutOfRange (len good) (len good)).
Proof.
  intros Hcopied Hsought Hgood Ht. rewrite (eatFlag_at _ _ _ _ _ Hcopied).
  rewrite (ArgLoop_flag _ _ _ _ _ _ _ _ Hsought).
  pose proof (len_nonneg good). pose proof (len_nonneg rest).
  rewrite ltb_false by (rewrite len_app, len_cons; lia).
  unfold make. rewrite ltb_false by lia. run_O.
  rewrite (paramLoop_reaches pre flag good t rest (len good) Hgood) by lia.
  run_O. unfold nodash in Ht. rewrite Ht. cbn [negb].
  replace (Z.to_nat (len good) - length good)%nat with 0%nat by (unfold len; lia).
  cbn [replicate]. rewrite app_nil_r.
  unfold store, in_range. rewrite Z.ltb_irrefl, andb_false_r. reflexivity.
Qed.

Lemma first_special flags (args : list string) :
  Forall (copied flags) args \/
  exists pre t rest,
    args = pre ++ t :: rest /\ Forall (copied flags) pre /\ (t = "--" \/ sought flags t).
Proof.
  induction args as [|a args IH]; [left; constructor|].
  destruct (String.eqb_spec "--" a) as [<-|Hmark].
  { right. exists [], "--", args. repeat split; [constructor | left; reflexivity]. }
  apply String.eqb_neq in Hmark.
  destruct (hasFlag flags a) eqn:Hflag.
  { right. exists [], a, args. repeat split; [constructor | right; split; assumption]. }
  destruct IH as [Hall | (pre & t & rest & -> & Hpre & Ht)].
  - left. constructor; [split; assumption | exact Hall].
  - right. exists (a :: pre), t, rest.
    repeat split; [constructor; [split; assumption | exact Hpre] | exact Ht].
Qed.

Lemma nodash_prefix (rest : list string) :
  exists good rest',
    rest = good ++ rest' /\ Forall nodash good /\
    (rest' = [] \/ exists t r, rest' = t :: r /\ dashed t).
Proof.
  induction rest as [|a rest IH]; [exists [], []; repeat split; [constructor | left; reflexivity]|].
  destruct (strings_HasPrefix a "-") eqn:Ha.
  - exists [], (a :: rest). repeat split; [constructor|]. right. exists a, rest. split; [reflexivity | exact Ha].
  - destruct IH as (good & rest' & -> & Hgood & Hrest').
    exists (a :: good), rest'. repeat split; [constructor; assumption | exact Hrest'].
Qed.

(* more than [paramCount] dash-free arguments behind the flag *)
Lemma eatFlag_overrun_at flags paramCount (pre : list string) flag good rest :
  Forall (copied flags) pre ->
  sought flags flag ->
  Forall nodash good ->
  0 <= paramCount < len good ->
  eatFlag (pre ++ flag :: good ++ rest) flags paramCount
  = Panic (IndexOutOfRange paramCount paramCount).
Proof.
  intros Hcopied Hsought Hgood Hlen.
  rewrite <- (take_drop (Z.to_nat paramCount) good) in Hgood |- *.
  apply Forall_app in Hgood as [Htake Hdrop].
  destruct (drop (Z.to_nat paramCount) good) as [|t rest'] eqn:Hd.
  { apply (f_equal length) in Hd. rewrite length_drop in Hd. unfold len in Hlen.
    simpl in Hd. lia. }
  apply Forall_cons in Hdrop as [Ht Hdrop].
  assert (len (take (Z.to_nat paramCount) good) = paramCount) as Hp
    by (unfold len in *; rewrite length_take; lia).
  rewrite <- app_assoc. cbn [app]. rewrite <- Hp at 2 3 4.
  apply eatFlag_overrun; assumption.
Qed.

(* Every outcome of eatFlag. *)
Lemma eatFlag_cases (args flags : list string) (paramCount : Z) :
  (Forall (copied flags) args /\
   eatFlag args flags paramCount = Ret ([], args, FlagNotFound))
  \/
  (exists pre rest,
      args = pre ++ "--" :: rest /\ Forall (copied flags) pre /\
      eatFlag args flags paramCount = Ret ([], pre ++ rest ++ [""], FlagNotFound))
  \/
  (exists pre flag ps,
      args = pre ++ flag :: ps /\ Forall (copied flags) pre /\ sought flags flag /\
      Forall nodash ps /\ len ps = paramCount /\
      eatFlag args flags paramCount = Ret (ps, pre ++ replicate (S (length ps)) "", FlagFound))
  \/
  (exists pre flag rest,
      args = pre ++ flag :: rest /\ Forall (copied flags) pre /\ sought flags flag /\
      eatFlag args flags paramCount = Ret ([], args, FlagHasTooFewParams))
  \/
  (exists pre flag rest e,
      args = pre ++ flag :: rest /\ Forall (copied flags) pre /\ sought flags flag /\
      eatFlag args flags paramCount = Panic e).
Proof.
  destruct (first_special flags args) as [Hall | (pre & t & rest & -> & Hpre & [-> | Ht])].
  - left. split; [exact Hall | apply eatFlag_nothing_to_eat; exact Hall].
  - right. left. exists pre, rest. repeat split; [exact Hpre | apply eatFlag_marker; exact Hpre].
  - do 2 right.
    destruct (Z.ltb_spec paramCount 0) as [Hneg|Hpos].
    { do 2 right. exists pre, t, rest, (MakeNegativeLen paramCount).
      repeat split; try assumption; try apply Ht.
      apply eatFlag_negative_paramCount; assumption. }
    destruct (nodash_prefix rest) as (good & rest' & -> & Hgood & Hrest').
    destruct (Z.lt_total (len good) paramCount) as [Hlt | [Heq | Hgt]].
    + (* too few dash-free arguments *)
      right. left. exists pre, t, (good ++ rest').
      repeat split; try assumption; try apply Ht.
      destruct Hrest' as [-> | (t' & r & -> & Ht')].
      * apply eatFlag_short; try assumption. rewrite app_nil_r. exact Hlt.
      * apply eatFlag_interrupted; try assumption. lia.
    + destruct Hrest' as [-> | (t' & r & -> & Ht')].
      * left. exists pre, t, good. rewrite app_nil_r.
        repeat split; try assumption; try apply Ht.
        rewrite <- Heq. apply eatFlag_found; assumption.
      * right. left. exists pre, t, (good ++ t' :: r).
        repeat split; try assumption; try apply Ht.
        apply eatFlag_interrupted; try assumption. lia.
    + do 2 right. exists pre, t, (good ++ rest'), (IndexOutOfRange paramCount paramCount).
      repeat split; try assumption; try apply Ht.
      apply eatFlag_overrun_at; try assumption. lia.
Qed.

(* Whatever eatFlag returns, [remaining] is as long as [args]. *)
Lemma eatFlag_keeps_length (args flags : list string) (paramCount : Z)
    (params : ParamList) (remaining : list string) (err : FlagError) :
  eatFlag args flags paramCount = Ret (params, remaining, err) ->
  length remaining = length args.
Proof.
  intros Hret.
  destruct (eatFlag_cases args flags paramCount)
    as [(_ & H) | [(pre & rest & -> & _ & H) | [(pre & t & ps & -> & _ & _ & _ & _ & H)
       | [(pre & t & rest & _ & _ & _ & H) | (pre & t & rest & e & _ & _ & _ & H)]]]];
    rewrite H in Hret; try discriminate; injection Hret as <- <- <-;
    rewrite ?length_app, ?length_replicate; simpl; rewrite ?length_replicate;
    try reflexivity; lia.
Qed.

(* eatFlag reports FlagFound only for a flag that stands, with exactly
    paramCount dash-free parameters, at the very end of the arguments. *)
Lemma eatFlag_found_only (args flags : list string) (paramCount : Z)
    (params : ParamList) (remaining : list string) :
  eatFlag args flags paramCount = Ret (params, remaining, FlagFound) ->
  exists pre flag,
    args = pre ++ flag :: params /\
    Forall (copied flags) pre /\ sought flags flag /\
    Forall nodash params /\ len params = paramCount /\
    remaining = pre ++ replicate (S (length params)) "".
Proof.
  intros Hret.
  destruct (eatFlag_cases args flags paramCount)
    as [(_ & H) | [(pre & rest & -> & _ & H) | [(pre & t & ps & -> & Hpre & Ht & Hps & Hlen & H)
       | [(pre & t & rest & _ & _ & _ & H) | (pre & t & rest & e & _ & _ & _ & H)]]]];
    rewrite H in Hret; try discriminate; injection Hret as <- <-.
  exists pre, t. repeat split; try assumption; apply Ht.
Qed.

(* Without FlagFound there are no parameters, and with
    FlagHasTooFewParams the arguments come back untouched. *)
Lemma eatFlag_not_found (args flags : list string) (paramCount : Z)
    (params : ParamList) (remaining : list string) (err : FlagError) :
  eatFlag args flags paramCount = Ret (params, remaining, err) ->
  err <> FlagFound ->
  params = [] /\ (err = FlagHasTooFewParams -> remaining = args).
Proof.
  intros Hret Herr.
  destruct (eatFlag_cases args flags paramCount)
    as [(_ & H) | [(pre & rest & -> & _ & H) | [(pre & t & ps & -> & _ & _ & _ & _ & H)
       | [(pre & t & rest & _ & _ & _ & H) | (pre & t & rest & e & _ & _ & _ & H)]]]];
    rewrite H in Hret; try discriminate; injection Hret as <- <- <-;
    try congruence; split; try reflexivity; try discriminate.
Qed.

Lemma parseFlags_unfold (args : list string) (st : State) :
  parseFlags args st =
    match eatFlag args ["-V"; "--version"] 0 with
    | Ret (_, r1, e1) =>
        if decide (e1 = FlagFound) then (extend st [PrintedVersion], Exit 0)
        else
          match eatFlag r1 ["-h"; "--help"] 0 with
          | Ret (_, r2, e2) =>
              if decide (e2 = FlagFound) then (extend st [PrintedUsage], Exit 0)
              else
                match eatFlag r2 ["--init-log"] 1 with
                | Ret (params, r3, e3) =>
                    if decide (e3 = FlagHasTooFewParams) then
                      (extend st [Logged (log_output st) L_InitLogMissingArgument;
                                  PrintedUsage],
                       Exit 7)
                    else
                      match getOr params 0 "" with
                      | Ret v => (st, Ret (<["init-log" := v]> ∅, r3))
                      | Exit c => (st, Exit c)
                      | Panic e => (st, Panic e)
                      | OutOfFuel => (st, OutOfFuel)
                      end
                | Exit c => (st, Exit c)
                | Panic e => (st, Panic e)
                | OutOfFuel => (st, OutOfFuel)
                end
          | Exit c => (st, Exit c)
          | Panic e => (st, Panic e)
          | OutOfFuel => (st, OutOfFuel)
          end
    | Exit c => (st, Exit c)
    | Panic e => (st, Panic e)
    | OutOfFuel => (st, OutOfFuel)
    end.
Proof.
  unfold parseFlags, extend. run_M.
  destruct (eatFlag args _ 0) as [[[p1 r1] e1]| | |]; try reflexivity.
  destruct (decide (e1 = FlagFound)); [reflexivity|].
  destruct (eatFlag r1 _ 0) as [[[p2 r2] e2]| | |]; try reflexivity.
  destruct (decide (e2 = FlagFound)); [reflexivity|].
  destruct (eatFlag r2 _ 1) as [[[p3 r3] e3]| | |]; try reflexivity.
  destruct (decide (e3 = FlagHasTooFewParams)).
  - rewrite <- app_assoc. reflexivity.
  - destruct (getOr p3 0 "") as [v| | |]; reflexivity.
Qed.

Lemma sought_elem flags t : t ∈ flags -> t <> "--" -> sought flags t.
Proof.
  intros Hin Hne. split.
  - apply String.eqb_neq. congruence.
  - apply hasFlag_spec. exact Hin.
Qed.

Lemma no_exit_flag_copied (t : string) :
  no_exit_flag t -> copied ["-V"; "--version"] t /\ copied ["-h"; "--help"] t.
Proof.
  intros Ht. split; apply copied_not_elem; intros Hin; apply Ht;
    repeat (apply elem_of_cons in Hin as [->|Hin]; [solve [repeat constructor]|]);
    inversion Hin.
Qed.

Lemma no_exit_flags_copied (args : list string) :
  Forall no_exit_flag args ->
  Forall (copied ["-V"; "--version"]) args /\ Forall (copied ["-h"; "--help"]) args.
Proof.
  intros Hargs. split; (eapply Forall_impl; [exact Hargs|]);
    intros t Ht; apply no_exit_flag_copied; exact Ht.
Qed.

Lemma nodash_plain (t : string) : nodash t -> plain t.
Proof.
  unfold nodash, plain. intros Ht Hin.
  repeat (apply elem_of_cons in Hin as [->|Hin]; [discriminate Ht|]).
  inversion Hin.
Qed.

Lemma plain_no_exit_flag (t : string) : plain t -> no_exit_flag t.
Proof.
  unfold plain, no_exit_flag. intros Ht Hin. apply Ht.
  repeat (apply elem_of_cons in Hin as [->|Hin]; [solve [repeat constructor]|]).
  inversion Hin.
Qed.

Lemma plain_copied_init_log (t : string) : plain t -> copied ["--init-log"] t.
Proof.
  intros Ht. apply copied_not_elem. intros Hin. apply Ht.
  repeat (apply elem_of_cons in Hin as [->|Hin]; [solve [repeat constructor]|]).
  inversion Hin.
Qed.

Lemma eatFlag_found_at flags paramCount (pre : list string) t ps :
  Forall (copied flags) pre -> sought flags t -> Forall nodash ps ->
  len ps = paramCount ->
  eatFlag (pre ++ t :: ps) flags paramCount
  = Ret (ps, pre ++ replicate (S (length ps)) "", FlagFound).
Proof. intros Hpre Ht Hps <-. apply eatFlag_found; assumption. Qed.

(* -V or --version as the last argument, behind arguments with no marker
    and no version flag: the version is printed and the program exits 0. *)
Lemma parseFlags_version (pre : list string) (v : string) (st : State) :
  Forall (copied ["-V"; "--version"]) pre ->
  v ∈ ["-V"; "--version"] ->
  parseFlags (pre ++ [v]) st = (extend st [PrintedVersion], Exit 0).
Proof.
  intros Hpre Hv. rewrite parseFlags_unfold.
  assert (sought ["-V"; "--version"] v) as Hs.
  { apply sought_elem; [exact Hv|].
    repeat (apply elem_of_cons in Hv as [->|Hv]; [discriminate|]). inversion Hv. }
  rewrite (eatFlag_found_at _ 0 pre v [] Hpre Hs (Forall_nil_2 _) eq_refl). reflexivity.
Qed.

(* -h or --help as the last argument, behind arguments with no marker, no
    version flag and no help flag: usage is printed and the program exits 0. *)
Lemma parseFlags_help (pre : list string) (h : string) (st : State) :
  Forall no_exit_flag pre ->
  h ∈ ["-h"; "--help"] ->
  parseFlags (pre ++ [h]) st = (extend st [PrintedUsage], Exit 0).
Proof.
  intros Hpre Hh. rewrite parseFlags_unfold.
  destruct (no_exit_flags_copied pre Hpre) as [HpreV HpreH].
  assert (copied ["-V"; "--version"] h) as HhV.
  { apply copied_not_elem. intros Hin.
    repeat (apply elem_of_cons in Hh as [->|Hh];
            [repeat (apply elem_of_cons in Hin as [Hin|Hin]; [discriminate|]);
             inversion Hin|]).
    inversion Hh. }
  rewrite (eatFlag_nothing_to_eat (pre ++ [h]) _ 0)
    by (apply Forall_app; split; [exact HpreV | apply Forall_singleton; exact HhV]).
  destruct (decide (FlagNotFound = FlagFound)) as [Hne|_]; [discriminate|].
  assert (sought ["-h"; "--help"] h) as Hs.
  { apply sought_elem; [exact Hh|].
    repeat (apply elem_of_cons in Hh as [->|Hh]; [discriminate|]). inversion Hh. }
  rewrite (eatFlag_found_at _ 0 pre h [] HpreH Hs (Forall_nil_2 _) eq_refl). reflexivity.
Qed.

(* --init-log FILE as the last two arguments behind plain tokens: the
    option is set to FILE; the tokens come back followed by two empty
    strings. *)
Lemma parseFlags_init_log (pre : list string) (FILE : string) (st : State) :
  Forall plain pre ->
  nodash FILE ->
  parseFlags (pre ++ ["--init-log"; FILE]) st
  = (st, Ret (<["init-log" := FILE]> ∅, pre ++ [""; ""])).
Proof.
  intros Hpre HFILE. rewrite parseFlags_unfold.
  assert (Forall no_exit_flag (pre ++ ["--init-log"; FILE])) as Hall.
  { apply Forall_app. split.
    - eapply Forall_impl; [exact Hpre|]. apply plain_no_exit_flag.
    - repeat constructor.
      + intros Hin. repeat (apply elem_of_cons in Hin as [Hin|Hin]; [discriminate|]).
        inversion Hin.
      + apply plain_no_exit_flag, nodash_plain, HFILE. }
  destruct (no_exit_flags_copied _ Hall) as [HV HH].
  rewrite (eatFlag_nothing_to_eat _ _ 0 HV).
  destruct (decide (FlagNotFound = FlagFound)) as [Hne|_]; [discriminate|].
  rewrite (eatFlag_nothing_to_eat _ _ 0 HH).
  destruct (decide (FlagNotFound = FlagFound)) as [Hne|_]; [discriminate|].
  assert (sought ["--init-log"] "--init-log") as Hs by (split; reflexivity).
  assert (Forall (copied ["--init-log"]) pre) as HpreL
    by (eapply Forall_impl; [exact Hpre | apply plain_copied_init_log]).
  rewrite (eatFlag_found_at _ 1 pre "--init-log" [FILE] HpreL Hs)
    by (try reflexivity; apply Forall_singleton; exact HFILE).
  reflexivity.
Qed.

(* --init-log without a value, or with a token that begins with a dash
    as its value or right behind its value: the program logs the error,
    prints usage and exits with the code of BadFlag. *)
Lemma parseFlags_init_log_rejected (pre rest : list string) (st : State) :
  Forall no_exit_flag (pre ++ rest) ->
  "--init-log" ∉ pre ->
  rest = [] \/
  (exists good t r, rest = good ++ t :: r /\ Forall nodash good /\
                    (length good <= 1)%nat /\ dashed t) ->
  parseFlags (pre ++ "--init-log" :: rest) st
  = (extend st [Logged (log_output st) L_InitLogMissingArgument; PrintedUsage],
     Exit (AppError_int BadFlag)).
Proof.
  intros Hall Hpre Hrest. rewrite parseFlags_unfold.
  assert (Forall no_exit_flag (pre ++ "--init-log" :: rest)) as Hall'.
  { apply Forall_app in Hall as [H1 H2]. apply Forall_app. split; [exact H1|].
    constructor; [|exact H2].
    intros Hin. repeat (apply elem_of_cons in Hin as [Hin|Hin]; [discriminate|]).
    inversion Hin. }
  destruct (no_exit_flags_copied _ Hall') as [HV HH].
  rewrite (eatFlag_nothing_to_eat _ _ 0 HV).
  destruct (decide (FlagNotFound = FlagFound)) as [Hne|_]; [discriminate|].
  rewrite (eatFlag_nothing_to_eat _ _ 0 HH).
  destruct (decide (FlagNotFound = FlagFound)) as [Hne|_]; [discriminate|].
  assert (sought ["--init-log"] "--init-log") as Hs by (split; reflexivity).
  assert (Forall (copied ["--init-log"]) pre) as HpreL.
  { apply Forall_app in Hall as [H1 _].
    apply Forall_forall. intros t Ht. apply copied_not_elem. intros Hin.
    apply elem_of_cons in Hin as [->|Hin].
    - rewrite Forall_forall in H1. apply (H1 _ Ht). left.
    - apply list_elem_of_singleton in Hin as ->. exact (Hpre Ht). }
  assert (eatFlag (pre ++ "--init-log" :: rest) ["--init-log"] 1
          = Ret ([], pre ++ "--init-log" :: rest, FlagHasTooFewParams)) as ->.
  { destruct Hrest as [-> | (good & t & r & -> & Hgood & Hlen & Ht)].
    - apply eatFlag_short; [exact HpreL | exact Hs | reflexivity].
    - apply eatFlag_interrupted; try assumption. unfold len. lia. }
  destruct (decide (FlagHasTooFewParams = FlagHasTooFewParams)); [reflexivity | congruence].
Qed.

Lemma eatFlag_returns_or_panics (args flags : list string) (paramCount : Z) :
  returns_or_panics (eatFlag args flags paramCount).
Proof.
  destruct (eatFlag_cases args flags paramCount)
    as [(_ & H) | [(pre & rest & _ & _ & H) | [(pre & t & ps & _ & _ & _ & _ & _ & H)
       | [(pre & t & rest & _ & _ & _ & H) | (pre & t & rest & e & _ & _ & _ & H)]]]];
    rewrite H; exact I.
Qed.

Lemma getOr_returns (p : ParamList) (i : Z) (d : string) :
  exists v, getOr p i d = Ret v.
Proof.
  unfold getOr. rewrite Z.geb_leb.
  destruct (Z.ltb_spec i 0) as [Hneg|Hpos]; [exists d; reflexivity|].
  destruct (Z.leb_spec (len p) i) as [Hbig|Hsmall]; [exists d; reflexivity|].
  simpl. destruct (index_in_range p i) as (x & _ & Hx); [lia|].
  exists x. exact Hx.
Qed.

(* what stands behind a return of parseFlags *)
Lemma parseFlags_ret_inv (args : list string) (st st' : State)
    (options : gmap string string) (remaining : list string) :
  parseFlags args st = (st', Ret (options, remaining)) ->
  exists p1 r1 e1 p2 r2 e2 p3 e3 v,
    eatFlag args ["-V"; "--version"] 0 = Ret (p1, r1, e1) /\ e1 <> FlagFound /\
    eatFlag r1 ["-h"; "--help"] 0 = Ret (p2, r2, e2) /\ e2 <> FlagFound /\
    eatFlag r2 ["--init-log"] 1 = Ret (p3, remaining, e3) /\ e3 <> FlagHasTooFewParams /\
    getOr p3 0 "" = Ret v /\
    options = <["init-log" := v]> ∅ /\ st' = st.
Proof.
  rewrite parseFlags_unfold. intros Hret.
  destruct (eatFlag args _ 0) as [[[p1 r1] e1]| | |] eqn:H1; try discriminate.
  destruct (decide (e1 = FlagFound)) as [|He1]; [discriminate|].
  destruct (eatFlag r1 _ 0) as [[[p2 r2] e2]| | |] eqn:H2; try discriminate.
  destruct (decide (e2 = FlagFound)) as [|He2]; [discriminate|].
  destruct (eatFlag r2 _ 1) as [[[p3 r3] e3]| | |] eqn:H3; try discriminate.
  destruct (decide (e3 = FlagHasTooFewParams)) as [|He3]; [discriminate|].
  destruct (getOr p3 0 "") as [v| | |] eqn:Hv; try discriminate.
  injection Hret as <- <- <-.
  exists p1, r1, e1, p2, r2, e2, p3, e3, v. repeat split; try assumption; reflexivity.
Qed.

(* When parseFlags returns it has changed nothing in the state, the
    arguments it hands back are as many as it was given, and the options
    hold the one key "init-log". *)
Lemma parseFlags_returns (args : list string) (st st' : State)
    (options : gmap string string) (remaining : list string) :
  parseFlags args st = (st', Ret (options, remaining)) ->
  st' = st /\
  length remaining = length args /\
  exists v, options = <["init-log" := v]> ∅.
Proof.
  intros Hret.
  destruct (parseFlags_ret_inv _ _ _ _ _ Hret)
    as (p1 & r1 & e1 & p2 & r2 & e2 & p3 & e3 & v & H1 & _ & H2 & _ & H3 & _ & _ & -> & ->).
  split; [reflexivity|]. split; [|exists v; reflexivity].
  rewrite (eatFlag_keeps_length _ _ _ _ _ _ H3), (eatFlag_keeps_length _ _ _ _ _ _ H2).
  exact (eatFlag_keeps_length _ _ _ _ _ _ H1).
Qed.

(* a pass that does not find its flag hands the arguments back as they
   were, or with an empty string at the end *)
Lemma eatFlag_remaining (args flags : list string) (paramCount : Z)
    (params : ParamList) (remaining : list string) (err : FlagError) :
  eatFlag args flags paramCount = Ret (params, remaining, err) ->
  err <> FlagFound ->
  remaining = args \/ exists l, remaining = l ++ [""].
Proof.
  intros Hret Herr.
  destruct (eatFlag_cases args flags paramCount)
    as [(_ & H) | [(pre & rest & -> & _ & H) | [(pre & t & ps & -> & _ & _ & _ & _ & H)
       | [(pre & t & rest & _ & _ & _ & H) | (pre & t & rest & e & _ & _ & _ & H)]]]];
    rewrite H in Hret; try discriminate; injection Hret as <- <- <-;
    try congruence; try (left; reflexivity).
  right. exists (pre ++ rest). rewrite app_assoc. reflexivity.
Qed.

(* The init-log option is set to a non-empty FILE only when
    "--init-log" and FILE are the last two arguments. *)
Lemma parseFlags_init_log_only_last (args : list string) (st st' : State)
    (options : gmap string string) (remaining : list string) (FILE : string) :
  parseFlags args st = (st', Ret (options, remaining)) ->
  options !! "init-log" = Some FILE ->
  FILE <> "" ->
  exists pre,
    args = pre ++ ["--init-log"; FILE] /\
    ("--init-log" ∉ pre) /\ ("--" ∉ pre) /\ nodash FILE /\
    remaining = pre ++ [""; ""].
Proof.
  intros Hret Hopt HFILE.
  destruct (parseFlags_ret_inv _ _ _ _ _ Hret)
    as (p1 & r1 & e1 & p2 & r2 & e2 & p3 & e3 & v & H1 & He1 & H2 & He2 & H3 & He3 & Hv
        & -> & ->).
  rewrite lookup_insert_eq in Hopt. injection Hopt as ->.
  destruct e3; [|exfalso|congruence].
  2:{ destruct (eatFlag_not_found _ _ _ _ _ _ H3) as [-> _]; [discriminate|].
      vm_compute in Hv. congruence. }
  destruct (eatFlag_found_only _ _ _ _ _ H3)
    as (pre & flag & -> & Hpre & Hflag & Hps & Hlen & ->).
  destruct p3 as [|x [|y p3]]; try (unfold len in Hlen; simpl in Hlen; lia).
  vm_compute in Hv. injection Hv as ->.
  assert (flag = "--init-log") as ->.
  { destruct Hflag as [_ Hflag]. apply hasFlag_spec in Hflag.
    apply list_elem_of_singleton in Hflag. exact Hflag. }
  assert (forall args0 flags0 pc p r e,
             eatFlag args0 flags0 pc = Ret (p, r, e) -> e <> FlagFound ->
             last r = Some FILE -> r = args0) as Hsame.
  { intros args0 flags0 pc p r e Heat Hne Hlast.
    destruct (eatFlag_remaining _ _ _ _ _ _ Heat Hne) as [-> | (l & ->)]; [reflexivity|].
    rewrite last_snoc in Hlast. congruence. }
  assert (last (pre ++ ["--init-log"; FILE]) = Some FILE) as Hlast
    by (change (pre ++ ["--init-log"; FILE]) with (pre ++ ["--init-log"] ++ [FILE]);
        rewrite app_assoc; apply last_snoc).
  pose proof (Hsame _ _ _ _ _ _ H2 He2 Hlast) as E2. subst r1.
  pose proof (Hsame _ _ _ _ _ _ H1 He1 Hlast) as E1. subst args.
  exists pre. repeat split; try reflexivity.
  - intros Hin. rewrite Forall_forall in Hpre. destruct (Hpre _ Hin) as [_ Hf].
    discriminate Hf.
  - intros Hin. rewrite Forall_forall in Hpre. destruct (Hpre _ Hin) as [Hm _].
    discriminate Hm.
  - inversion Hps; assumption.
Qed.

(* parseFlags returns, exits with 0 (version, help) or with the code of
    BadFlag, or panics. *)
Lemma parseFlags_outcomes (args : list string) (st : State) :
  match snd (parseFlags args st) with
  | Ret _ => True
  | Exit c => c = 0 \/ c = AppError_int BadFlag
  | Panic _ => True
  | OutOfFuel => False
  end.
Proof.
  rewrite parseFlags_unfold.
  pose proof (eatFlag_returns_or_panics args ["-V"; "--version"] 0) as H1.
  destruct (eatFlag args _ 0) as [[[p1 r1] e1]| | |]; try exact I; try contradiction.
  destruct (decide (e1 = FlagFound)); [left; reflexivity|].
  pose proof (eatFlag_returns_or_panics r1 ["-h"; "--help"] 0) as H2.
  destruct (eatFlag r1 _ 0) as [[[p2 r2] e2]| | |]; try exact I; try contradiction.
  destruct (decide (e2 = FlagFound)); [left; reflexivity|].
  pose proof (eatFlag_returns_or_panics r2 ["--init-log"] 1) as H3.
  destruct (eatFlag r2 _ 1) as [[[p3 r3] e3]| | |]; try exact I; try contradiction.
  destruct (decide (e3 = FlagHasTooFewParams)); [right; reflexivity|].
  destruct (getOr_returns p3 0 "") as [v ->]. exact I.
Qed.

Lemma select_race_bound tie d : snd (select_race tie d) <= SIG_TIMEOUT.
Proof.
  destruct d as [after err|]; simpl; [|lia].
  destruct (Z.ltb_spec after SIG_TIMEOUT); simpl; [lia|].
  destruct (Z.eqb_spec after SIG_TIMEOUT); simpl; [destruct tie; simpl; lia | lia].
Qed.

Lemma after_attempt_frame env sig st :
  log_output (after_attempt env sig st) = log_output st /\
  clock (after_attempt env sig st) <= clock st + SIG_TIMEOUT.
Proof.
  unfold after_attempt. rewrite deliver_eq. simpl. split; [reflexivity|].
  pose proof (select_race_bound (select_tie env (clock st)) (p_Signal env (clock st) sig)).
  lia.
Qed.

Lemma stopProcess_frame env sigs : forall st,
  exists new,
    trace (fst (stopProcess env sigs st)) = trace st ++ new /\
    Forall (stop_effect (log_output st)) new /\
    log_output (fst (stopProcess env sigs st)) = log_output st /\
    clock (fst (stopProcess env sigs st)) <= clock st + len sigs * SIG_TIMEOUT.
Proof.
  induction sigs as [|sig0 rest IH]; intros st.
  - rewrite stopProcess_nil. change (len (@nil Signal)) with 0.
    destruct (p_Kill env (clock st)) as [e|]; simpl;
      eexists; (split; [reflexivity|]); (split; [|split; [reflexivity|lia]]);
      repeat constructor.
  - rewrite stopProcess_cons, len_cons.
    destruct (after_attempt_frame env sig0 st) as [Hlog Hclock].
    pose proof (len_nonneg rest) as Hrest.
    assert (Forall (stop_effect (log_output st)) (attempt_effects st sig0)) as Heff
      by (repeat constructor).
    assert (0 < SIG_TIMEOUT) as Hpos by reflexivity.
    destruct (IH (after_attempt env sig0 st)) as (new & Htr & Hnew & Hlog' & Hclock').
    assert (exists new',
               trace (fst (stopProcess env rest (after_attempt env sig0 st)))
               = trace st ++ new' /\
               Forall (stop_effect (log_output st)) new' /\
               log_output (fst (stopProcess env rest (after_attempt env sig0 st)))
               = log_output st /\
               clock (fst (stopProcess env rest (after_attempt env sig0 st)))
               <= clock st + (len rest + 1) * SIG_TIMEOUT) as Hrec.
    { exists (attempt_effects st sig0 ++ new). repeat split.
      - rewrite Htr, after_attempt_trace, app_assoc. reflexivity.
      - apply Forall_app. split; [exact Heff|]. rewrite <- Hlog. exact Hnew.
      - rewrite Hlog'. exact Hlog.
      - nia. }
    destruct (fst (select_race _ _)) as [[e|]|]; try exact Hrec.
    exists (attempt_effects st sig0). simpl. repeat split.
    + apply after_attempt_trace.
    + exact Heff.
    + exact Hlog.
    + nia.
Qed.

(* stopProcess leaves the log destination alone, does nothing but log its
    attempts, signal, arm timers and kill, and the time it spends waiting in
    its selects is at most SIG_TIMEOUT for each signal of the sequence. *)
Lemma stopProcess_waits_at_most (env : Env) (sigs : list Signal) (st : State) :
  clock (fst (stopProcess env sigs st)) <= clock st + len sigs * SIG_TIMEOUT /\
  log_output (fst (stopProcess env sigs st)) = log_output st /\
  exists new,
    trace (fst (stopProcess env sigs st)) = trace st ++ new /\
    Forall (stop_effect (log_output st)) new.
Proof.
  destruct (stopProcess_frame env sigs st) as (new & Htr & Hnew & Hlog & Hclock).
  split; [exact Hclock|]. split; [exact Hlog|]. exists new. split; assumption.
Qed.

Lemma stop_effect_logs_to dest e : stop_effect dest e -> logs_to dest e.
Proof. destruct e as [d l| | | | | | |]; simpl; try tauto. destruct l; tauto. Qed.

Lemma stop_effect_not_AppError dest e d err :
  stop_effect dest e -> e <> Logged d (L_AppError err).
Proof. intros He ->. exact He. Qed.

Lemma stopProcess_results env sigs st :
  (exists sig, snd (stopProcess env sigs st) = Ret (Some sig, OK)) \/
  snd (stopProcess env sigs st) = Ret (None, FailedToKillApp) \/
  snd (stopProcess env sigs st) = Exit 1.
Proof.
  destruct (stopProcess_runs env sigs st) as (st' & r & new & -> & _ & Hend).
  destruct Hend as [(k & s & _ & -> & _) | (_ & [-> | ->])]; simpl; eauto.
Qed.

Lemma stop_effect_run_effect dest e : stop_effect dest e -> run_effect dest e.
Proof. destruct e as [d l| | | | | | |]; simpl; try tauto. destruct l; tauto. Qed.

Lemma run_effect_logs_to dest e : run_effect dest e -> logs_to dest e.
Proof. destruct e as [d l| | | | | | |]; simpl; tauto. Qed.

Ltac run_effects := repeat (constructor; simpl; auto).

(* everything runCommand does, by the three ways it can go *)
Lemma runCommand_frame env cmd st :
  exists new,
    trace (fst (runCommand env cmd st)) = trace st ++ StartCalled cmd :: new /\
    log_output (fst (runCommand env cmd st)) = log_output st /\
    Forall (run_effect (log_output st)) new /\
    clock (fst (runCommand env cmd st)) <= clock st + 3 * SIG_TIMEOUT /\
    (snd (runCommand env cmd st) = Ret OK \/
     snd (runCommand env cmd st) = Ret AppStoppedWithError \/
     snd (runCommand env cmd st) = Ret FailedToKillApp \/
     snd (runCommand env cmd st) = Ret InsufficientSignalError \/
     snd (runCommand env cmd st) = Exit 1).
Proof.
  assert (0 < SIG_TIMEOUT) as Hpos by reflexivity.
  destruct (cmd_Start env cmd) as [e|] eqn:Hstart.
  { rewrite (runCommand_start_error _ _ _ _ Hstart). eexists. simpl.
    repeat split; [run_effects | lia | auto 6]. }
  destruct (notified env) as [sig|] eqn:Hsig.
  2:{ rewrite (runCommand_on_exit _ _ _ Hstart Hsig). eexists. simpl.
      repeat split; [|lia|destruct (child_exit_code env =? 0); auto].
      destruct (cmd_Wait env); run_effects. }
  rewrite (runCommand_on_signal _ _ _ _ Hstart Hsig).
  destruct (stopProcess_frame env [sig; SIGTERM; SIGHUP] (at_escalation cmd sig st))
    as (new & Htr & Hnew & Hlog & Hclock).
  pose proof (stopProcess_results env [sig; SIGTERM; SIGHUP] (at_escalation cmd sig st))
    as Hres.
  change (len [sig; SIGTERM; SIGHUP]) with 3 in Hclock.
  change (clock (at_escalation cmd sig st)) with (clock st) in Hclock.
  change (log_output (at_escalation cmd sig st)) with (log_output st) in Hlog, Hnew.
  assert (Forall (run_effect (log_output st)) new) as Hnew'
    by (eapply Forall_impl; [exact Hnew | apply stop_effect_run_effect]).
  destruct (stopProcess env [sig; SIGTERM; SIGHUP] (at_escalation cmd sig st))
    as [st' r]. simpl in Htr, Hlog, Hclock, Hres.
  unfold at_escalation, extend in Htr. simpl in Htr.
  destruct Hres as [(s & ->) | [-> | ->]].
  - destruct (decide (OK ≠ OK)) as [Hne|_]; [congruence|].
    exists (logged st [L_AppStarted; L_ReceivedSignal sig] ++ new
            ++ logged st' [L_AppStoppedWithSignal (Some s)]).
    simpl. repeat split.
    + rewrite Htr, <- !app_assoc. reflexivity.
    + exact Hlog.
    + run_effects. apply Forall_app. split; [exact Hnew'|]. run_effects.
    + exact Hclock.
    + destruct (decide (Some s = Some sig)); [auto|].
      destruct (decide (Some s = Some SIGINT)); auto 6.
  - destruct (decide (FailedToKillApp ≠ OK)) as [_|Hn]; [|exfalso; apply Hn; discriminate].
    exists (logged st [L_AppStarted; L_ReceivedSignal sig] ++ new
            ++ logged st' [L_AppError FailedToKillApp]).
    simpl. repeat split.
    + rewrite Htr, <- !app_assoc. reflexivity.
    + exact Hlog.
    + run_effects. apply Forall_app. split; [exact Hnew'|]. run_effects.
    + exact Hclock.
    + auto 6.
  - exists (logged st [L_AppStarted; L_ReceivedSignal sig] ++ new).
    simpl. repeat split.
    + rewrite Htr, <- !app_assoc. reflexivity.
    + exact Hlog.
    + run_effects.
    + exact Hclock.
    + auto 6.
Qed.

Lemma main_eq env argv :
  main env argv =
    ('(options, args) ← parseFlags argv;
     file ← main_open_log env (default "" (options !! "init-log"));
     err ← main_run env args;
     main_close_log file;;
     os_Exit (AppError_int err)).
Proof. reflexivity. Qed.

Lemma main_open_log_eq env init_log st :
  main_open_log env init_log st =
    if decide (init_log ≠ "") then
      match os_OpenFile env init_log with
      | Some _ => (extend st [Logged (log_output st) (L_CannotOpenLogFile init_log)], Ret None)
      | None => (mkState (clock st) (LogFile init_log) (trace st), Ret (Some init_log))
      end
    else (st, Ret None).
Proof.
  unfold main_open_log, extend.
  destruct (decide (init_log ≠ "")); [|reflexivity].
  destruct (os_OpenFile env init_log); reflexivity.
Qed.

Lemma main_run_eq env args st :
  main_run env args st =
    match args with
    | [] => (extend st [PrintedUsage; Logged (log_output st) L_MissingCommand],
             Ret MissingArgument)
    | cmd :: cargs => runCommand env (exec_Command cmd cargs) st
    end.
Proof.
  unfold main_run. destruct args as [|cmd cargs].
  - unfold extend. run_M. rewrite <- app_assoc. reflexivity.
  - rewrite len_cons. pose proof (len_nonneg cargs).
    replace (len cargs + 1 =? 0) with false by (symmetry; apply Z.eqb_neq; lia).
    unfold mbind at 1, M_bind at 1, lift. rewrite index_here. cbn [drop].
    destruct cargs as [|c cargs]; [reflexivity|].
    rewrite len_cons. pose proof (len_nonneg cargs).
    rewrite ltb_true by lia. reflexivity.
Qed.

(* main behind a parseFlags that returned *)
Lemma main_after_parse env argv st options args :
  parseFlags argv st = (st, Ret (options, args)) ->
  main env argv st =
    (file ← main_open_log env (default "" (options !! "init-log"));
     err ← main_run env args;
     main_close_log file;;
     os_Exit (AppError_int err)) st.
Proof.
  intros Hparse. rewrite main_eq. unfold mbind at 1, M_bind at 1. rewrite Hparse.
  reflexivity.
Qed.

(* With no argument at all main prints usage, logs that the command is
    missing and exits with the code of MissingArgument; no other command
    line ends with that code. *)
Lemma main_missing_argument (env : Env) (argv : list string) (st : State) :
  snd (main env argv st) = Exit (AppError_int MissingArgument) <-> argv = [].
Proof.
  split; [|intros ->; reflexivity].
  intros Hexit. rewrite main_eq in Hexit. unfold mbind at 1, M_bind at 1 in Hexit.
  pose proof (parseFlags_outcomes argv st) as Hout.
  destruct (parseFlags argv st) as [st1 [[options args]|c|e|]] eqn:Hparse;
    simpl in Hout, Hexit; try discriminate.
  2:{ injection Hexit as ->. destruct Hout; discriminate. }
  destruct (parseFlags_returns _ _ _ _ _ Hparse) as (-> & Hlen & _).
  unfold mbind at 1, M_bind at 1 in Hexit. rewrite main_open_log_eq in Hexit.
  assert (forall st2 file,
             snd ((err ← main_run env args; main_close_log file;;
                   (os_Exit (AppError_int err) : M unit)) st2) = Exit 4 ->
             args = []) as Hrun.
  { intros st2 file Hrun. unfold mbind at 1, M_bind at 1 in Hrun.
    rewrite main_run_eq in Hrun. destruct args as [|cmd cargs]; [reflexivity|].
    exfalso.
    destruct (runCommand_frame env (exec_Command cmd cargs) st2)
      as (new & _ & _ & _ & _ & Hres).
    destruct (runCommand env (exec_Command cmd cargs) st2) as [st3 r].
    simpl in Hres.
    destruct Hres as [-> | [-> | [-> | [-> | ->]]]]; destruct file; discriminate. }
  assert (args = []) as ->.
  { destruct (decide (default "" (options !! "init-log") ≠ ""));
      [destruct (os_OpenFile env _)|]; eapply Hrun; exact Hexit. }
  destruct argv; [reflexivity | discriminate].
Qed.


(* main on a command followed by --init-log FILE *)
Lemma main_init_log_eq env cmd cargs FILE st :
  Forall plain (cmd :: cargs) ->
  nodash FILE ->
  main env (cmd :: cargs ++ ["--init-log"; FILE]) st =
    (file ← main_open_log env FILE;
     err ← runCommand env (exec_Command cmd (cargs ++ [""; ""]));
     main_close_log file;;
     os_Exit (AppError_int err)) st.
Proof.
  intros Hplain HFILE.
  change (cmd :: cargs ++ ["--init-log"; FILE])
    with ((cmd :: cargs) ++ ["--init-log"; FILE]).
  rewrite (main_after_parse env _ st _ _
             (parseFlags_init_log (cmd :: cargs) FILE st Hplain HFILE)).
  rewrite lookup_insert_eq. cbn [from_option id].
  cbv [mbind M_bind].
  destruct (main_open_log env FILE st) as [st2 [file| | |]]; try reflexivity.
  rewrite main_run_eq. reflexivity.
Qed.

(* A command followed by --init-log FILE, when FILE can be opened: the
    run is that of the command with two empty strings added to its
    arguments, every line it logs goes to FILE, and when runCommand returns
    the file is closed before the program exits with the code of the
    result. *)
Lemma main_logs_to_init_log (env : Env) (cmd : string) (cargs : list string)
    (FILE : string) (st : State) :
  Forall plain (cmd :: cargs) ->
  nodash FILE ->
  FILE <> "" ->
  os_OpenFile env FILE = None ->
  exists new,
    trace (fst (main env (cmd :: cargs ++ ["--init-log"; FILE]) st))
    = trace st ++ StartCalled (exec_Command cmd (cargs ++ [""; ""])) :: new /\
    Forall (logs_to (LogFile FILE)) new /\
    (forall err,
        snd (runCommand env (exec_Command cmd (cargs ++ [""; ""]))
               (mkState (clock st) (LogFile FILE) (trace st))) = Ret err ->
        last new = Some (FileClosed FILE) /\
        snd (main env (cmd :: cargs ++ ["--init-log"; FILE]) st)
        = Exit (AppError_int err)).
Proof.
  intros Hplain HFILE Hne Hopen.
  set (st2 := mkState (clock st) (LogFile FILE) (trace st)).
  set (c := exec_Command cmd (cargs ++ [""; ""])).
  assert (main env (cmd :: cargs ++ ["--init-log"; FILE]) st =
          match runCommand env c st2 with
          | (st3, Ret err) => (extend st3 [FileClosed FILE], Exit (AppError_int err))
          | (st3, Exit code) => (st3, Exit code)
          | (st3, Panic e) => (st3, Panic e)
          | (st3, OutOfFuel) => (st3, OutOfFuel)
          end) as ->.
  { rewrite (main_init_log_eq env cmd cargs FILE st Hplain HFILE).
    unfold mbind at 1, M_bind at 1. rewrite main_open_log_eq.
    destruct (decide (FILE ≠ "")) as [_|Hn]; [|contradiction].
    rewrite Hopen. unfold mbind at 1, M_bind at 1. fold st2 c.
    destruct (runCommand env c st2) as [st3 [err|code|e|]]; reflexivity. }
  destruct (runCommand_frame env c st2) as (new & Htr & Hlog & Hrun & _ & _).
  assert (Forall (logs_to (LogFile FILE)) new) as Hnew
    by (eapply Forall_impl; [exact Hrun | apply run_effect_logs_to]).
  destruct (runCommand env c st2) as [st3 r]. simpl in Htr, Hlog, Hnew |- *.
  destruct r as [err|code|e|].
  - exists (new ++ [FileClosed FILE]). simpl. repeat split.
    + rewrite Htr, <- app_assoc. reflexivity.
    + apply Forall_app. split; [exact Hnew | repeat constructor].
    + apply last_snoc.
    + congruence.
  - exists new. simpl. repeat split; [exact Htr | exact Hnew | discriminate | discriminate].
  - exists new. simpl. repeat split; [exact Htr | exact Hnew | discriminate | discriminate].
  - exists new. simpl. repeat split; [exact Htr | exact Hnew | discriminate | discriminate].
Qed.

(* The same command line when FILE cannot be opened: a warning is logged
    where the log went before, the run goes on logging there, and no file is
    closed. *)
Lemma main_log_file_unavailable (env : Env) (cmd : string) (cargs : list string)
    (FILE : string) (e : error) (st : State) :
  Forall plain (cmd :: cargs) ->
  nodash FILE ->
  FILE <> "" ->
  os_OpenFile env FILE = Some e ->
  exists new,
    trace (fst (main env (cmd :: cargs ++ ["--init-log"; FILE]) st))
    = trace st ++ Logged (log_output st) (L_CannotOpenLogFile FILE)
               :: StartCalled (exec_Command cmd (cargs ++ [""; ""])) :: new /\
    Forall (logs_to (log_output st)) new /\
    FileClosed FILE ∉ new.
Proof.
  intros Hplain HFILE Hne Hopen.
  set (st2 := extend st [Logged (log_output st) (L_CannotOpenLogFile FILE)]).
  set (c := exec_Command cmd (cargs ++ [""; ""])).
  assert (fst (main env (cmd :: cargs ++ ["--init-log"; FILE]) st)
          = fst (runCommand env c st2)) as ->.
  { rewrite (main_init_log_eq env cmd cargs FILE st Hplain HFILE).
    unfold mbind at 1, M_bind at 1. rewrite main_open_log_eq.
    destruct (decide (FILE ≠ "")) as [_|Hn]; [|contradiction].
    rewrite Hopen. unfold mbind at 1, M_bind at 1. fold st2 c.
    destruct (runCommand env c st2) as [st3 [err|code|e'|]]; reflexivity. }
  destruct (runCommand_frame env c st2) as (new & Htr & Hlog & Hrun & _ & _).
  exists new. repeat split.
  - rewrite Htr. unfold st2, extend. simpl. rewrite <- app_assoc. reflexivity.
  - eapply Forall_impl; [exact Hrun | apply run_effect_logs_to].
  - intros Hin. rewrite Forall_forall in Hrun. exact (Hrun _ Hin).
Qed.

Lemma runCommand_accepts_first env cmd st sig after :
  cmd_Start env cmd = None ->
  notified env = Some sig ->
  p_Signal env (clock st) sig = Returns after None ->
  after < SIG_TIMEOUT ->
  runCommand env cmd st =
    (mkState (clock st + after) (log_output st)
       (trace st ++ StartCalled cmd ::
          logged st [L_AppStarted; L_ReceivedSignal sig; L_AttemptingToStop sig] ++
          [SignalSent (clock st) sig; TimerArmed (clock st + SIG_TIMEOUT)] ++
          logged st [L_AppStoppedWithSignal (Some sig)]),
     Ret OK).
Proof.
  intros Hstart Hsig Hret Hlt.
  rewrite (runCommand_on_signal _ _ _ _ Hstart Hsig), stopProcess_cons.
  change (clock (at_escalation cmd sig st)) with (clock st). rewrite Hret.
  unfold select_race. rewrite ltb_true by exact Hlt. cbn [fst].
  destruct (decide (OK ≠ OK)) as [Hne|_]; [congruence|].
  destruct (decide (Some sig = Some sig)) as [_|Hne]; [|congruence].
  unfold after_attempt. rewrite deliver_eq.
  change (clock (at_escalation cmd sig st)) with (clock st). rewrite Hret.
  unfold select_race. rewrite ltb_true by exact Hlt.
  unfold extend, at_escalation, extend, logged, attempt_effects. simpl.
  rewrite <- !app_assoc. reflexivity.
Qed.

(** * Further properties of the code *)

Ltac run_eval := vm_compute; reflexivity.
Ltac not_listed :=
  let H := fresh "Hin" in
  intros H; repeat (apply elem_of_cons in H as [H|H]; [discriminate|]); inversion H.
Ltac all_copied := repeat (constructor; try (split; reflexivity)).
Ltac all_plain := repeat (constructor; try not_listed).

(** ** eatFlag and its closure hasFlag *)

(** X1. Whatever eatFlag returns, the slice [remaining] it hands back has
    the length of [args]: tokens that were consumed leave empty strings at
    its end. *)
Theorem eatFlag_remaining_length (args flags : list string) (paramCount : Z)
    (params : ParamList) (remaining : list string) (err : FlagError) :
  eatFlag args flags paramCount = Ret (params, remaining, err) ->
  length remaining = length args.
Proof. apply eatFlag_keeps_length. Qed.

Lemma eatFlag_remaining_length_witness :
  eatFlag ["/bin/app"; "--init-log"; "f"] ["--init-log"] 1
  = Ret (["f"], ["/bin/app"; ""; ""], FlagFound) /\
  length ["/bin/app"; ""; ""] = length ["/bin/app"; "--init-log"; "f"].
Proof.
  assert (eatFlag ["/bin/app"; "--init-log"; "f"] ["--init-log"] 1
          = Ret (["f"], ["/bin/app"; ""; ""], FlagFound)) as H by run_eval.
  split; [exact H|].
  exact (eatFlag_remaining_length _ _ _ _ _ _ H).
Defined.

(** X2. A flag that stands at the very end of the arguments with exactly
    its parameters, none of which begins with a dash, behind tokens that are
    neither the marker nor the flag: eatFlag returns the parameters,
    FlagFound, and the tokens before the flag followed by one empty string
    for the flag and one for each parameter. *)
Theorem eatFlag_finds_trailing_flag (flags pre : list string) (flag : string)
    (ps : list string) :
  Forall (copied flags) pre ->
  sought flags flag ->
  Forall nodash ps ->
  eatFlag (pre ++ flag :: ps) flags (len ps)
  = Ret (ps, pre ++ replicate (S (length ps)) "", FlagFound).
Proof. apply eatFlag_found. Qed.

Lemma eatFlag_finds_trailing_flag_witness :
  eatFlag (["/bin/app"; "-a"] ++ "--init-log" :: ["f"]) ["--init-log"] (len ["f"])
  = Ret (["f"], ["/bin/app"; "-a"] ++ replicate 2 "", FlagFound).
Proof.
  apply (eatFlag_finds_trailing_flag ["--init-log"] ["/bin/app"; "-a"] "--init-log" ["f"]).
  - all_copied.
  - split; reflexivity.
  - repeat constructor.
Defined.

(** X3. eatFlag returns FlagFound in no other case: the arguments then end
    with the flag and exactly paramCount parameters without a leading dash,
    and no marker or flag stands before. *)
Theorem eatFlag_finds_only_trailing_flag (args flags : list string) (paramCount : Z)
    (params : ParamList) (remaining : list string) :
  eatFlag args flags paramCount = Ret (params, remaining, FlagFound) ->
  exists pre flag,
    args = pre ++ flag :: params /\
    Forall (copied flags) pre /\ sought flags flag /\
    Forall nodash params /\ len params = paramCount /\
    remaining = pre ++ replicate (S (length params)) "".
Proof. apply eatFlag_found_only. Qed.

Lemma eatFlag_finds_only_trailing_flag_witness :
  exists pre flag,
    ["/bin/app"; "-h"] = pre ++ flag :: [] /\
    Forall (copied ["-h"; "--help"]) pre /\ sought ["-h"; "--help"] flag /\
    Forall nodash [] /\ len (@nil string) = 0 /\
    ["/bin/app"; ""] = pre ++ replicate (S (length (@nil string))) "".
Proof.
  apply (eatFlag_finds_only_trailing_flag ["/bin/app"; "-h"] ["-h"; "--help"] 0 []
           ["/bin/app"; ""]).
  run_eval.
Defined.

(** X4. At the first "--" the pass stops looking: whatever follows the
    marker, flags included, is moved down one place unexamined, an empty
    string takes the last place, and the result is FlagNotFound. *)
Theorem eatFlag_stops_at_marker (flags : list string) (paramCount : Z)
    (pre rest : list string) :
  Forall (copied flags) pre ->
  eatFlag (pre ++ "--" :: rest) flags paramCount
  = Ret ([], pre ++ rest ++ [""], FlagNotFound).
Proof. apply eatFlag_marker. Qed.

Lemma eatFlag_stops_at_marker_witness :
  eatFlag (["-x"] ++ "--" :: ["/bin/app"; "-h"]) ["-h"; "--help"] 0
  = Ret ([], ["-x"] ++ ["/bin/app"; "-h"] ++ [""], FlagNotFound).
Proof.
  apply (eatFlag_stops_at_marker ["-h"; "--help"] 0 ["-x"] ["/bin/app"; "-h"]).
  all_copied.
Defined.

(** X5. A flag with fewer arguments behind it than paramCount, or whose
    arguments are interrupted by a token that begins with a dash before more
    than paramCount of them were taken: eatFlag returns
    FlagHasTooFewParams, no parameters, and the arguments as they were.
    This is so even when the flag has all its parameters and the dashed
    token only follows them. *)
Theorem eatFlag_too_few_params (flags : list string) (paramCount : Z)
    (pre : list string) (flag : string) (rest : list string) :
  Forall (copied flags) pre ->
  sought flags flag ->
  len rest < paramCount \/
  (exists good t r, rest = good ++ t :: r /\ Forall nodash good /\ dashed t /\
                    len good <= paramCount) ->
  eatFlag (pre ++ flag :: rest) flags paramCount
  = Ret ([], pre ++ flag :: rest, FlagHasTooFewParams).
Proof.
  intros Hpre Hflag [Hshort | (good & t & r & -> & Hgood & Ht & Hlen)].
  - apply eatFlag_short; assumption.
  - apply eatFlag_interrupted; assumption.
Qed.

Lemma eatFlag_too_few_params_witness :
  eatFlag ([] ++ "--init-log" :: ["f"; "-x"; "/bin/app"]) ["--init-log"] 1
  = Ret ([], [] ++ "--init-log" :: ["f"; "-x"; "/bin/app"], FlagHasTooFewParams).
Proof.
  apply (eatFlag_too_few_params ["--init-log"] 1 [] "--init-log" ["f"; "-x"; "/bin/app"]).
  - constructor.
  - split; reflexivity.
  - right. exists ["f"], "-x", ["/bin/app"].
    split; [reflexivity|]. split; [repeat constructor|]. split; [reflexivity|].
    unfold len. simpl. lia.
Defined.

(** X6. A flag followed by more than paramCount arguments without a leading
    dash: the parameter loop stores behind the end of [params] and eatFlag
    panics with index paramCount out of range for length paramCount. *)
Theorem eatFlag_params_overrun (flags : list string) (paramCount : Z)
    (pre : list string) (flag : string) (good rest : list string) :
  Forall (copied flags) pre ->
  sought flags flag ->
  Forall nodash good ->
  0 <= paramCount < len good ->
  eatFlag (pre ++ flag :: good ++ rest) flags paramCount
  = Panic (IndexOutOfRange paramCount paramCount).
Proof. apply eatFlag_overrun_at. Qed.

Lemma eatFlag_params_overrun_witness :
  eatFlag (["/bin/app"] ++ "-h" :: ["x"] ++ ["-y"]) ["-h"; "--help"] 0
  = Panic (IndexOutOfRange 0 0).
Proof.
  apply (eatFlag_params_overrun ["-h"; "--help"] 0 ["/bin/app"] "-h" ["x"] ["-y"]).
  - all_copied.
  - split; reflexivity.
  - repeat constructor.
  - unfold len. simpl. lia.
Defined.

(** X7. Arguments that hold neither the marker nor one of the flags come
    back unchanged, with no parameters and FlagNotFound. *)
Theorem eatFlag_copies_other_arguments (args flags : list string) (paramCount : Z) :
  Forall (copied flags) args ->
  eatFlag args flags paramCount = Ret ([], args, FlagNotFound).
Proof. apply eatFlag_nothing_to_eat. Qed.

Lemma eatFlag_copies_other_arguments_witness :
  eatFlag ["/bin/app"; "-a"; "b"] ["-V"; "--version"] 0
  = Ret ([], ["/bin/app"; "-a"; "b"], FlagNotFound).
Proof.
  apply (eatFlag_copies_other_arguments ["/bin/app"; "-a"; "b"] ["-V"; "--version"] 0).
  all_copied.
Defined.

(** X8. Unless eatFlag reports FlagFound it returns no parameters, and with
    FlagHasTooFewParams it returns the arguments untouched. *)
Theorem eatFlag_no_params_unless_found (args flags : list string) (paramCount : Z)
    (params : ParamList) (remaining : list string) (err : FlagError) :
  eatFlag args flags paramCount = Ret (params, remaining, err) ->
  err <> FlagFound ->
  params = [] /\ (err = FlagHasTooFewParams -> remaining = args).
Proof. apply eatFlag_not_found. Qed.

Lemma eatFlag_no_params_unless_found_witness :
  (@nil string) = [] /\
  (FlagHasTooFewParams = FlagHasTooFewParams ->
   ["--init-log"; "-x"] = ["--init-log"; "-x"]).
Proof.
  apply (eatFlag_no_params_unless_found ["--init-log"; "-x"] ["--init-log"] 1 []
           ["--init-log"; "-x"] FlagHasTooFewParams).
  - run_eval.
  - discriminate.
Defined.

(** X9. Every outcome of eatFlag: it returns the arguments with
    FlagNotFound (nothing to eat), or shifted past the first marker with
    FlagNotFound, or FlagFound for a trailing flag with its parameters, or
    FlagHasTooFewParams with the arguments untouched, or it panics at a
    flag.  It never ends the program and its loops end within their
    bounds. *)
Theorem eatFlag_every_outcome (args flags : list string) (paramCount : Z) :
  (Forall (copied flags) args /\
   eatFlag args flags paramCount = Ret ([], args, FlagNotFound))
  \/
  (exists pre rest,
      args = pre ++ "--" :: rest /\ Forall (copied flags) pre /\
      eatFlag args flags paramCount = Ret ([], pre ++ rest ++ [""], FlagNotFound))
  \/
  (exists pre flag ps,
      args = pre ++ flag :: ps /\ Forall (copied flags) pre /\ sought flags flag /\
      Forall nodash ps /\ len ps = paramCount /\
      eatFlag args flags paramCount = Ret (ps, pre ++ replicate (S (length ps)) "", FlagFound))
  \/
  (exists pre flag rest,
      args = pre ++ flag :: rest /\ Forall (copied flags) pre /\ sought flags flag /\
      eatFlag args flags paramCount = Ret ([], args, FlagHasTooFewParams))
  \/
  (exists pre flag rest e,
      args = pre ++ flag :: rest /\ Forall (copied flags) pre /\ sought flags flag /\
      eatFlag args flags paramCount = Panic e).
Proof. apply eatFlag_cases. Qed.

(** X10. The closure hasFlag answers true exactly for the arguments that
    are one of the flags. *)
Theorem hasFlag_is_membership (flags : list string) (arg : string) :
  hasFlag flags arg = true <-> arg ∈ flags.
Proof. apply hasFlag_spec. Qed.

(** ** parseFlags *)

(** X11. -V or --version as the last argument, behind arguments that hold
    neither the marker nor a version flag (they may hold -h or --init-log):
    the version is printed and the program exits with 0. *)
Theorem parseFlags_version_last (pre : list string) (v : string) (st : State) :
  Forall (copied ["-V"; "--version"]) pre ->
  v ∈ ["-V"; "--version"] ->
  parseFlags (pre ++ [v]) st = (extend st [PrintedVersion], Exit (AppError_int OK)).
Proof. apply parseFlags_version. Qed.

Lemma parseFlags_version_last_witness :
  parseFlags (["-h"; "/bin/app"] ++ ["-V"]) initial
  = (extend initial [PrintedVersion], Exit (AppError_int OK)).
Proof.
  apply (parseFlags_version_last ["-h"; "/bin/app"] "-V" initial).
  - all_copied.
  - repeat constructor.
Defined.

(** X12. -h or --help as the last argument, behind arguments that hold no
    marker, no version flag and no help flag: usage is printed and the
    program exits with 0. *)
Theorem parseFlags_help_last (pre : list string) (h : string) (st : State) :
  Forall no_exit_flag pre ->
  h ∈ ["-h"; "--help"] ->
  parseFlags (pre ++ [h]) st = (extend st [PrintedUsage], Exit (AppError_int OK)).
Proof. apply parseFlags_help. Qed.

Lemma parseFlags_help_last_witness :
  parseFlags (["/bin/app"; "-a"] ++ ["--help"]) initial
  = (extend initial [PrintedUsage], Exit (AppError_int OK)).
Proof.
  apply (parseFlags_help_last ["/bin/app"; "-a"] "--help" initial).
  - all_plain.
  - repeat constructor.
Defined.

(** X13. --init-log FILE as the last two arguments, FILE without a leading
    dash, behind tokens that are neither the marker nor a flag of the
    supervisor: parseFlags returns the option init-log set to FILE and the
    tokens followed by two empty strings; the state is unchanged. *)
Theorem parseFlags_init_log_last (pre : list string) (FILE : string) (st : State) :
  Forall plain pre ->
  nodash FILE ->
  parseFlags (pre ++ ["--init-log"; FILE]) st
  = (st, Ret (<["init-log" := FILE]> ∅, pre ++ [""; ""])).
Proof. apply parseFlags_init_log. Qed.

Lemma parseFlags_init_log_last_witness :
  parseFlags (["/bin/app"; "-a"] ++ ["--init-log"; "/tmp/init.log"]) initial
  = (initial, Ret (<["init-log" := "/tmp/init.log"]> ∅, ["/bin/app"; "-a"] ++ [""; ""])).
Proof.
  apply (parseFlags_init_log_last ["/bin/app"; "-a"] "/tmp/init.log" initial).
  - all_plain.
  - reflexivity.
Defined.

(** X14. --init-log with nothing behind it, or with a token that begins
    with a dash as its value or right behind its value, in arguments that
    hold no marker, version flag or help flag: parseFlags logs that the
    argument is missing, prints usage and exits with the code of BadFlag. *)
Theorem parseFlags_init_log_bad (pre rest : list string) (st : State) :
  Forall no_exit_flag (pre ++ rest) ->
  "--init-log" ∉ pre ->
  rest = [] \/
  (exists good t r, rest = good ++ t :: r /\ Forall nodash good /\
                    (length good <= 1)%nat /\ dashed t) ->
  parseFlags (pre ++ "--init-log" :: rest) st
  = (extend st [Logged (log_output st) L_InitLogMissingArgument; PrintedUsage],
     Exit (AppError_int BadFlag)).
Proof. apply parseFlags_init_log_rejected. Qed.

Lemma parseFlags_init_log_bad_witness :
  parseFlags (["/bin/app"] ++ "--init-log" :: ["f"; "-a"]) initial
  = (extend initial [Logged Stderr L_InitLogMissingArgument; PrintedUsage], Exit 7).
Proof.
  apply (parseFlags_init_log_bad ["/bin/app"] ["f"; "-a"] initial).
  - all_plain.
  - not_listed.
  - right. exists ["f"], "-a", []. split; [reflexivity|].
    split; [repeat constructor|]. split; [simpl; lia | reflexivity].
Defined.

(** X15. When parseFlags returns it has left the state as it was, it hands
    back exactly as many arguments as it was given, and the options hold the
    key "init-log" and nothing else. *)
Theorem parseFlags_returns_same_length (args : list string) (st st' : State)
    (options : gmap string string) (remaining : list string) :
  parseFlags args st = (st', Ret (options, remaining)) ->
  st' = st /\
  length remaining = length args /\
  exists v, options = <["init-log" := v]> ∅.
Proof. apply parseFlags_returns. Qed.

Lemma parseFlags_returns_same_length_witness :
  initial = initial /\
  length ["/bin/false"; ""] = length ["--"; "/bin/false"] /\
  exists v, (<["init-log" := ""]> ∅ : gmap string string) = <["init-log" := v]> ∅.
Proof.
  apply (parseFlags_returns_same_length ["--"; "/bin/false"] initial initial
           (<["init-log" := ""]> ∅) ["/bin/false"; ""]).
  run_eval.
Defined.

(** X16. parseFlags returns the init-log option set to a non-empty FILE
    only when "--init-log" and FILE are the last two arguments, FILE has no
    leading dash and neither the marker nor another --init-log stands
    before. *)
Theorem parseFlags_init_log_set_only_last (args : list string) (st st' : State)
    (options : gmap string string) (remaining : list string) (FILE : string) :
  parseFlags args st = (st', Ret (options, remaining)) ->
  options !! "init-log" = Some FILE ->
  FILE <> "" ->
  exists pre,
    args = pre ++ ["--init-log"; FILE] /\
    ("--init-log" ∉ pre) /\ ("--" ∉ pre) /\ nodash FILE /\
    remaining = pre ++ [""; ""].
Proof. apply parseFlags_init_log_only_last. Qed.

Lemma parseFlags_init_log_set_only_last_witness :
  exists pre,
    ["/bin/app"; "--init-log"; "f"] = pre ++ ["--init-log"; "f"] /\
    ("--init-log" ∉ pre) /\ ("--" ∉ pre) /\ nodash "f" /\
    ["/bin/app"; ""; ""] = pre ++ [""; ""].
Proof.
  apply (parseFlags_init_log_set_only_last ["/bin/app"; "--init-log"; "f"] initial initial
           (<["init-log" := "f"]> ∅) ["/bin/app"; ""; ""] "f").
  - run_eval.
  - reflexivity.
  - discriminate.
Defined.

(** X17. parseFlags returns, or exits with 0 (version, help) or with the
    code of BadFlag, or panics in eatFlag; it ends in no other way. *)
Theorem parseFlags_ends (args : list string) (st : State) :
  match snd (parseFlags args st) with
  | Ret _ => True
  | Exit c => c = 0 \/ c = AppError_int BadFlag
  | Panic _ => True
  | OutOfFuel => False
  end.
Proof. apply parseFlags_outcomes. Qed.

(** ** main *)

(** X18. With no argument at all main prints usage, logs that the command
    is missing and exits with the code of MissingArgument; no other command
    line ends with that code. *)
Theorem main_missing_argument_iff (env : Env) (argv : list string) (st : State) :
  snd (main env argv st) = Exit (AppError_int MissingArgument) <-> argv = [].
Proof. apply main_missing_argument. Qed.


(** X20. A command followed by --init-log FILE, when FILE can be opened:
    the run is that of the command with two empty strings added to its
    arguments, every line it logs goes to FILE, and when runCommand returns
    the file is closed last and the program exits with the code of the
    result. *)
Theorem main_init_log_round_trip (env : Env) (cmd : string) (cargs : list string)
    (FILE : string) (st : State) :
  Forall plain (cmd :: cargs) ->
  nodash FILE ->
  FILE <> "" ->
  os_OpenFile env FILE = None ->
  exists new,
    trace (fst (main env (cmd :: cargs ++ ["--init-log"; FILE]) st))
    = trace st ++ StartCalled (exec_Command cmd (cargs ++ [""; ""])) :: new /\
    Forall (logs_to (LogFile FILE)) new /\
    (forall err,
        snd (runCommand env (exec_Command cmd (cargs ++ [""; ""]))
               (mkState (clock st) (LogFile FILE) (trace st))) = Ret err ->
        last new = Some (FileClosed FILE) /\
        snd (main env (cmd :: cargs ++ ["--init-log"; FILE]) st)
        = Exit (AppError_int err)).
Proof. apply main_logs_to_init_log. Qed.

Lemma main_init_log_round_trip_witness :
  exists new,
    trace (fst (main (env_exits 0) ("/bin/true" :: [] ++ ["--init-log"; "/tmp/init.log"])
                  initial))
    = trace initial ++ StartCalled (exec_Command "/bin/true" ([] ++ [""; ""])) :: new /\
    Forall (logs_to (LogFile "/tmp/init.log")) new /\
    (forall err,
        snd (runCommand (env_exits 0) (exec_Command "/bin/true" ([] ++ [""; ""]))
               (mkState (clock initial) (LogFile "/tmp/init.log") (trace initial)))
        = Ret err ->
        last new = Some (FileClosed "/tmp/init.log") /\
        snd (main (env_exits 0) ("/bin/true" :: [] ++ ["--init-log"; "/tmp/init.log"])
               initial)
        = Exit (AppError_int err)).
Proof.
  apply (main_init_log_round_trip (env_exits 0) "/bin/true" [] "/tmp/init.log" initial).
  - all_plain.
  - reflexivity.
  - discriminate.
  - reflexivity.
Defined.

(** X21. The same command line when FILE cannot be opened: a warning is
    logged where the log went before, the run goes on logging there, and no
    file is closed. *)
Theorem main_init_log_unavailable (env : Env) (cmd : string) (cargs : list string)
    (FILE : string) (e : error) (st : State) :
  Forall plain (cmd :: cargs) ->
  nodash FILE ->
  FILE <> "" ->
  os_OpenFile env FILE = Some e ->
  exists new,
    trace (fst (main env (cmd :: cargs ++ ["--init-log"; FILE]) st))
    = trace st ++ Logged (log_output st) (L_CannotOpenLogFile FILE)
               :: StartCalled (exec_Command cmd (cargs ++ [""; ""])) :: new /\
    Forall (logs_to (log_output st)) new /\
    FileClosed FILE ∉ new.
Proof. apply main_log_file_unavailable. Qed.

Lemma main_init_log_unavailable_witness :
  exists new,
    trace (fst (main (env_no_log (OSError "permission denied"))
                  ("/bin/true" :: [] ++ ["--init-log"; "/init.log"]) initial))
    = trace initial ++ Logged (log_output initial) (L_CannotOpenLogFile "/init.log")
               :: StartCalled (exec_Command "/bin/true" ([] ++ [""; ""])) :: new /\
    Forall (logs_to (log_output initial)) new /\
    FileClosed "/init.log" ∉ new.
Proof.
  apply (main_init_log_unavailable (env_no_log (OSError "permission denied")) "/bin/true" []
           "/init.log" (OSError "permission denied") initial).
  - all_plain.
  - reflexivity.
  - discriminate.
  - reflexivity.
Defined.

(** ** stopProcess and runCommand *)

(** X22. Whatever the child does, the time stopProcess spends waiting in
    its selects is at most SIG_TIMEOUT for each signal of the sequence; it
    leaves the log destination alone, and all it does is log its attempts
    (and a failing kill) there, signal, arm timers and kill. *)
Theorem stopProcess_waits_two_seconds_each (env : Env) (sigs : list Signal) (st : State) :
  clock (fst (stopProcess env sigs st)) <= clock st + len sigs * SIG_TIMEOUT /\
  log_output (fst (stopProcess env sigs st)) = log_output st /\
  exists new,
    trace (fst (stopProcess env sigs st)) = trace st ++ new /\
    Forall (stop_effect (log_output st)) new.
Proof. apply stopProcess_waits_at_most. Qed.



(** X25. The escalation of runCommand waits for three signals at most:
    runCommand spends no more than three times SIG_TIMEOUT, six seconds,
    waiting in selects of stopProcess. *)
Theorem runCommand_waits_six_seconds (env : Env) (cmd : Cmd) (st : State) :
  clock (fst (runCommand env cmd st)) <= clock st + 6000000000.
Proof.
  destruct (runCommand_frame env cmd st) as (new & _ & _ & _ & Hclock & _).
  exact Hclock.
Qed.

(** X26. The only AppError runCommand ever logs (log.Println(err), line
    282) is FailedToKillApp, whose Error() text is "unknown error"; the text
    "SIGINT insufficient to stop app" of InsufficientSignalError is never
    logged. *)
Theorem runCommand_logs_unknown_error (env : Env) (cmd : Cmd) (st : State) :
  exists new,
    trace (fst (runCommand env cmd st)) = trace st ++ new /\
    Forall (fun e => forall d err, e = Logged d (L_AppError err) ->
                       err = FailedToKillApp /\ AppError_Error err = "unknown error")
           new.
Proof.
  destruct (runCommand_frame env cmd st) as (new & Htr & _ & Hrun & _ & _).
  exists (StartCalled cmd :: new). split; [exact Htr|].
  constructor; [intros d err; discriminate|].
  eapply Forall_impl; [exact Hrun|].
  intros e He d err ->. destruct He as [_ ->]. split; reflexivity.
Qed.

(** X27. If the child was started, a termination signal arrives and the
    call delivering that very signal returns nil before the timer fires,
    runCommand returns OK after that one attempt: it logs, sends the signal,
    arms one timer and logs the signal that stopped the app. *)
Theorem runCommand_first_signal_accepted (env : Env) (cmd : Cmd) (st : State)
    (sig : Signal) (after : Z) :
  cmd_Start env cmd = None ->
  notified env = Some sig ->
  p_Signal env (clock st) sig = Returns after None ->
  after < SIG_TIMEOUT ->
  runCommand env cmd st =
    (mkState (clock st + after) (log_output st)
       (trace st ++ StartCalled cmd ::
          logged st [L_AppStarted; L_ReceivedSignal sig; L_AttemptingToStop sig] ++
          [SignalSent (clock st) sig; TimerArmed (clock st + SIG_TIMEOUT)] ++
          logged st [L_AppStoppedWithSignal (Some sig)]),
     Ret OK).
Proof. apply runCommand_accepts_first. Qed.

Lemma runCommand_first_signal_accepted_witness :
  snd (runCommand (env_obedient SIGTERM) (exec_Command "/usr/bin/app" []) initial) = Ret OK.
Proof.
  rewrite (runCommand_first_signal_accepted (env_obedient SIGTERM)
             (exec_Command "/usr/bin/app" []) initial SIGTERM 1000
             eq_refl eq_refl eq_refl eq_refl).
  reflexivity.
Defined.

(** ** envOr *)

(** X28. envOr treats a variable set to the empty string as unset: after
    setting a variable to v, envOr answers v for it unless v is empty, in
    which case, as for a variable that was removed, it answers the default;
    other variables are not affected. *)
Theorem envOr_setenv (environ : gmap string string) (name v name' def : string) :
  envOr (<[name := v]> environ) name' def =
    (if decide (name = name') then (if decide (v = "") then def else v)
     else envOr environ name' def) /\
  envOr (delete name environ) name def = def.
Proof.
  unfold envOr, os_Getenv. split.
  - destruct (decide (name = name')) as [->|Hne].
    + rewrite lookup_insert_eq. simpl.
      destruct (decide (v ≠ "")), (decide (v = "")); try congruence; tauto.
    + rewrite lookup_insert_ne by exact Hne. reflexivity.
  - rewrite lookup_delete_eq. simpl.
    destruct (decide ("" ≠ "")); [congruence | reflexivity].
Qed.
